(** * Wey: the per-account state container (lib/model/account.js)

    A shallow embedding of the [Account] class and, from
    lib/view/chat-box.js, of the part of [ChatBox.onKeyUp] that consumes
    [findUsersByName], of the message and focus handlers of [ChatBox] and
    of the [normalizeId] helper, followed by the properties of the user
    directory, the read-state and mention aggregation, the signal
    dispatch and the chat box.

    Modelling conventions.
    - A JS object used as a dictionary ([users], [userNamesMap]) is a
      [gmap]; a JS array is a [list].
    - JS strings are [string]s over the ASCII alphabet, on which
      [toLowerCase] and [trim] are the ASCII case mapping and white space;
      the statements name a bucket by the key expression of the method
      they are about ([name[0].toLowerCase()] in [saveUser],
      [name.toLowerCase()[0]] in [findUsersByName]).
    - Counters ([mentions]) are integers [Z]; user ids are integers.
    - A method that mutates [this] takes the account and returns the new
      one; a [dispatch] on a signal (and a call into the account manager,
      lib/controller/account-manager.js) is recorded as an [Event] in the
      list the method returns; what the subscribers do is outside the
      class.
    - A statement that raises (reading a property of [undefined]) makes
      the method return [Throw]; a rejected promise is [Rejected]. *)

From stdpp Require Import gmap strings list fin_maps.
From Stdlib Require Import ZArith Ascii.

Local Open Scope Z_scope.

(** ** JavaScript primitives used by the class *)

Module Js.

Inductive Error : Type :=
| TypeError
| ErrorMsg (message : string).

(** Completion of a synchronous call. *)
Inductive Completion (A : Type) : Type :=
| Normal (a : A)
| Throw (e : Error).
Arguments Normal {A} a.
Arguments Throw {A} e.

(** Settlement of the promise an [async] method returns. *)
Inductive Promise (A : Type) : Type :=
| Fulfilled (a : A)
| Rejected (e : Error).
Arguments Fulfilled {A} a.
Arguments Rejected {A} e.

Definition lowerChar (c : ascii) : ascii :=
  let n := nat_of_ascii c in
  if ((65 <=? n) && (n <=? 90))%nat then ascii_of_nat (n + 32) else c.

(** [s.toLowerCase()] on a string over the ASCII alphabet: A to Z go to
    a to z, one character for one.  (Outside ASCII the JavaScript mapping
    is the Unicode one, where a character can lowercase to two.) *)
Fixpoint toLowerCase (s : string) : string :=
  match s with
  | EmptyString => EmptyString
  | String c s' => String (lowerChar c) (toLowerCase s')
  end.

(** [s[0]]: a one-character string, or [undefined] ([None]). *)
Definition charAt0 (s : string) : option string :=
  match s with
  | EmptyString => None
  | String c _ => Some (String c EmptyString)
  end.

(** The property key an index expression [o[k]] reads: [undefined] is
    converted to the string "undefined". *)
Definition propertyKey (k : option string) : string :=
  match k with
  | Some s => s
  | None => "undefined"%string
  end.

(** [s.indexOf(p)]: position of the first occurrence, or [-1]. *)
Definition stringIndexOf (s p : string) : Z :=
  match String.index 0 p s with
  | Some n => Z.of_nat n
  | None => -1
  end.

(** [v ? v : null] on an optional string: the empty string is falsy. *)
Definition orNull (v : option string) : option string :=
  match v with
  | Some EmptyString => None
  | _ => v
  end.

(** [arr.indexOf(x)] on an array of ids, scanning from position [i]. *)
Fixpoint indexOfFrom (i : Z) (x : Z) (arr : list Z) : Z :=
  match arr with
  | [] => -1
  | y :: arr' => if bool_decide (y = x) then i else indexOfFrom (i + 1) x arr'
  end.

Definition indexOf (x : Z) (arr : list Z) : Z := indexOfFrom 0 x arr.

(** [arr.splice(index, 1)] for [index >= 0]: the array afterwards. *)
Definition splice1 {A} (index : Z) (arr : list A) : list A :=
  delete (Z.to_nat index) arr.

(** The white space and line terminators of the ASCII alphabet, as
    [trim] sees them.  (Outside ASCII, [trim] also strips U+00A0, U+FEFF
    and the Unicode space separators.) *)
Definition isWhiteSpace (c : ascii) : bool :=
  let n := nat_of_ascii c in
  ((9 <=? n) && (n <=? 13))%nat || (n =? 32)%nat.

Fixpoint trimStart (s : string) : string :=
  match s with
  | EmptyString => EmptyString
  | String c s' => if isWhiteSpace c then trimStart s' else s
  end.

Fixpoint trimEnd (s : string) : string :=
  match s with
  | EmptyString => EmptyString
  | String c s' =>
      match trimEnd s' with
      | EmptyString => if isWhiteSpace c then EmptyString else String c EmptyString
      | t => String c t
      end
  end.

(** [s.trim()] *)
Definition trim (s : string) : string := trimEnd (trimStart s).

(** Truthiness of an optional string: [undefined], [null] and the empty
    string are falsy. *)
Definition truthy (v : option string) : bool :=
  match v with
  | Some (String _ _) => true
  | _ => false
  end.

(** [s.replace(p, r)] for a one-character string pattern [p]: only the
    first occurrence is replaced. *)
Fixpoint replaceFirst (p r : ascii) (s : string) : string :=
  match s with
  | EmptyString => EmptyString
  | String c s' =>
      if Ascii.eqb c p then String r s' else String c (replaceFirst p r s')
  end.

(** [e.name]: an error made by [new Error(message)] is named "Error". *)
Definition errorName (e : Error) : string :=
  match e with
  | TypeError => "TypeError"
  | ErrorMsg _ => "Error"
  end.

End Js.

(** ** Entities *)

Module User.
Record t : Type := mk { id : Z; name : string }.
End User.

(** Channels and DMs; [userId] is [undefined] ([None]) on a regular
    channel. *)
Module Channel.
Record t : Type := mk {
  id : string;
  isRead : bool;
  isMuted : bool;
  mentions : Z;
  userId : option Z
}.

Definition withMentions (m : Z) (c : t) : t :=
  mk (id c) (isRead c) (isMuted c) m (userId c).
End Channel.

(** Signals dispatched by an account, in dispatch order. *)
Inductive Event : Type :=
| OnUpdateReadState (read : bool)
| ManagerOnUpdateReadState
| OnUpdateMentions
| ManagerUpdateMentions.

Definition MENTION_SEARCH_LIMIT : nat := 5.

(** ** The Account class *)

Module Account.

Record Config : Type := mkConfig {
  cfg_id : string;
  cfg_name : string;
  cfg_icon : option string;
  cfg_currentChannelId : option string
}.

Record t : Type := mk {
  id : string;
  name : string;
  icon : option string;
  url : string;
  channels : list Channel.t;
  dms : list Channel.t;
  currentChannelId : option string;
  currentUserId : option Z;
  currentUserName : option string;
  users : gmap Z User.t;
  userNamesMap : gmap string (list Z);
  isRead : bool;
  mentions : Z;
  status : string;
  isChannelsReady : bool
}.

Definition setUsers (us : gmap Z User.t) (ix : gmap string (list Z)) (a : t) : t :=
  mk (id a) (name a) (icon a) (url a) (channels a) (dms a)
     (currentChannelId a) (currentUserId a) (currentUserName a)
     us ix (isRead a) (mentions a) (status a) (isChannelsReady a).

Definition setIsRead (r : bool) (a : t) : t :=
  mk (id a) (name a) (icon a) (url a) (channels a) (dms a)
     (currentChannelId a) (currentUserId a) (currentUserName a)
     (users a) (userNamesMap a) r (mentions a) (status a) (isChannelsReady a).

Definition setMentions (m : Z) (a : t) : t :=
  mk (id a) (name a) (icon a) (url a) (channels a) (dms a)
     (currentChannelId a) (currentUserId a) (currentUserName a)
     (users a) (userNamesMap a) (isRead a) m (status a) (isChannelsReady a).

Definition setChannels (cs ds : list Channel.t) (a : t) : t :=
  mk (id a) (name a) (icon a) (url a) cs ds
     (currentChannelId a) (currentUserId a) (currentUserName a)
     (users a) (userNamesMap a) (isRead a) (mentions a) (status a)
     (isChannelsReady a).

(** [constructor(service, config)] *)
Definition new (serviceId : string) (config : Config) : t :=
  {| id := cfg_id config;
     name := cfg_name config;
     icon := Js.orNull (cfg_icon config);
     url := String.append "https://"
              (String.append (cfg_id config)
                 (String.append "." (String.append serviceId ".com")));
     channels := [];
     dms := [];
     currentChannelId := Js.orNull (cfg_currentChannelId config);
     currentUserId := None;
     currentUserName := None;
     users := ∅;
     userNamesMap := ∅;
     isRead := true;
     mentions := 0;
     status := "connecting";
     isChannelsReady := false |}.

(** [findChannelByUserId(id)]: [this.dms.find((c) => c.userId === id)] *)
Definition findChannelByUserId (uid : Z) (a : t) : option Channel.t :=
  List.find (fun c => bool_decide (Channel.userId c = Some uid)) (dms a).

(** [findUserById(id)] *)
Definition findUserById (uid : Z) (a : t) : option User.t := users a !! uid.

(** [serialize()]: the config object; a field left out of the object is
    [None]. [currentChannelId] and [icon] are copied only when truthy. *)
Definition serialize (a : t) : Config :=
  {| cfg_id := id a;
     cfg_name := name a;
     cfg_icon := Js.orNull (icon a);
     cfg_currentChannelId := Js.orNull (currentChannelId a) |}.

(** [findChannelById(id)], for a string [id]: [channels] first, [dms]
    when [channels] holds no match. *)
Definition findChannelById (cid : string) (a : t) : option Channel.t :=
  match List.find (fun c => String.eqb (Channel.id c) cid) (channels a) with
  | Some channel => Some channel
  | None => List.find (fun c => String.eqb (Channel.id c) cid) (dms a)
  end.

(** The loop of [findUsersByName] over the remaining bucket [ids], with
    the array [found] and [exactIndex] built so far. *)
Fixpoint scanBucket (a : t) (lowerName : string) (ids : list Z)
    (found : list User.t) (exactIndex : option nat)
    : Js.Completion (list User.t * option nat) :=
  match ids with
  | [] => Js.Normal (found, exactIndex)
  | uid :: ids' =>
      match users a !! uid with
      | None => Js.Throw Js.TypeError
      | Some user =>
          let userLowerName := Js.toLowerCase (User.name user) in
          let isExact := String.eqb userLowerName lowerName in
          if isExact || (Js.stringIndexOf userLowerName lowerName =? 0) then
            let found' := found ++ [user] in
            let exactIndex' :=
              if isExact then Some (length found' - 1)%nat else exactIndex in
            if (length found' =? MENTION_SEARCH_LIMIT)%nat
            then Js.Normal (found', exactIndex')
            else scanBucket a lowerName ids' found' exactIndex'
          else scanBucket a lowerName ids' found exactIndex
      end
  end.

(** [findUsersByName(name)]: the pair [{ users, exactIndex }]. *)
Definition findUsersByName (nm : string) (a : t)
    : Js.Completion (list User.t * option nat) :=
  let lowerName := Js.toLowerCase nm in
  let firstLetter := Js.charAt0 lowerName in
  match userNamesMap a !! Js.propertyKey firstLetter with
  | Some letterUsers => scanBucket a lowerName letterUsers [] None
  | None => Js.Normal ([], None)
  end.

Definition compute (r : bool) (c : Channel.t) : bool :=
  if Channel.isRead c || Channel.isMuted c then r else false.

(** [computeReadState()] *)
Definition computeReadState (a : t) : bool :=
  fold_left compute (channels a) (fold_left compute (dms a) true).

(** The first half of [saveUser]: drop the old index entry when the
    stored name differs from the new one. *)
Definition deleteOldReference (newUser : User.t) (a : t)
    : Js.Completion (gmap string (list Z)) :=
  match users a !! User.id newUser with
  | Some oldUser =>
      if negb (String.eqb (User.name oldUser) (User.name newUser)) then
        match Js.charAt0 (User.name oldUser) with
        | None => Js.Throw Js.TypeError
        | Some c =>
            let oldFirstLetter := Js.toLowerCase c in
            match userNamesMap a !! oldFirstLetter with
            | None => Js.Throw Js.TypeError
            | Some bucket =>
                let index := Js.indexOf (User.id oldUser) bucket in
                if index >? -1
                then Js.Normal (<[oldFirstLetter := Js.splice1 index bucket]>
                                  (userNamesMap a))
                else Js.Normal (userNamesMap a)
            end
        end
      else Js.Normal (userNamesMap a)
  | None => Js.Normal (userNamesMap a)
  end.

(** The second half: create the bucket if needed and push the id. *)
Definition pushReference (newFirstLetter : string) (uid : Z)
    (ix : gmap string (list Z)) : gmap string (list Z) :=
  let ix' := match ix !! newFirstLetter with
             | Some _ => ix
             | None => <[newFirstLetter := []]> ix
             end in
  match ix' !! newFirstLetter with
  | Some bucket => <[newFirstLetter := bucket ++ [uid]]> ix'
  | None => ix'
  end.

(** [saveUser(newUser)]: the returned user and the account afterwards. *)
Definition saveUser (newUser : User.t) (a : t) : Js.Completion (User.t * t) :=
  match Js.charAt0 (User.name newUser) with
  | None => Js.Throw Js.TypeError
  | Some c =>
      let newFirstLetter := Js.toLowerCase c in
      match deleteOldReference newUser a with
      | Js.Throw e => Js.Throw e
      | Js.Normal ix =>
          Js.Normal
            (newUser,
             setUsers (<[User.id newUser := newUser]> (users a))
                      (pushReference newFirstLetter (User.id newUser) ix) a)
      end
  end.

(** A sequence of [saveUser] calls; it stops at the first one that
    throws. *)
Fixpoint saveUsers (us : list User.t) (a : t) : Js.Completion t :=
  match us with
  | [] => Js.Normal a
  | u :: us' =>
      match saveUser u a with
      | Js.Normal (_, a') => saveUsers us' a'
      | Js.Throw e => Js.Throw e
      end
  end.

(** [setReadState(read)] *)
Definition setReadState (read : bool) (a : t) : t * list Event :=
  if negb (Bool.eqb (isRead a) read) then
    let a' := setIsRead read a in
    (a', [OnUpdateReadState (isRead a'); ManagerOnUpdateReadState])
  else (a, []).

(** [updateReadState()] *)
Definition updateReadState (a : t) : t * list Event :=
  setReadState (computeReadState a) a.

Definition computeMention (m : Z) (c : Channel.t) : Z := m + Channel.mentions c.

(** The sum [updateMentions] recomputes. *)
Definition computeMentions (a : t) : Z :=
  fold_left computeMention (channels a) (fold_left computeMention (dms a) 0).

(** [updateMentions()] *)
Definition updateMentions (a : t) : t * list Event :=
  let mentions' := computeMentions a in
  if negb (mentions' =? mentions a) then
    (setMentions mentions' a, [OnUpdateMentions; ManagerUpdateMentions])
  else (a, []).

Definition notImplemented : Js.Error :=
  Js.ErrorMsg "Should be implemented by subclass".

(** The lifecycle methods of the base class: [async] methods whose body
    throws, so the promise they return is rejected. *)
Definition disconnect (a : t) : Js.Promise unit := Js.Rejected notImplemented.
Definition reload (a : t) : Js.Promise unit := Js.Rejected notImplemented.
Definition getAllChannels (a : t) : Js.Promise (list Channel.t) :=
  Js.Rejected notImplemented.
Definition join (channel : Channel.t) (a : t) : Js.Promise unit :=
  Js.Rejected notImplemented.
Definition leave (channel : Channel.t) (a : t) : Js.Promise unit :=
  Js.Rejected notImplemented.

End Account.

(** ** Messages and message lists, as the chat box reads them *)

Module Message.
Record t : Type := mk {
  timestamp : string;
  threadId : option string;
  userId : Z            (* [message.user.id] *)
}.
End Message.

Module MessageList.
Record t : Type := mk {
  id : string;
  firstUnreadTs : option string;
  account : Account.t
}.
End MessageList.

(** ** The consumer of [findUsersByName] in lib/view/chat-box.js *)

Module ChatBox.

(** [users.unshift(users.splice(exactIndex, 1)[0])]: the array
    afterwards; its first entry is [undefined] ([None]) when
    [exactIndex] is out of range. *)
Definition unshiftSplice (exactIndex : nat) (found : list User.t)
    : list (option User.t) :=
  found !! exactIndex :: (Some <$> delete exactIndex found).

(** The [users] array of [onKeyUp] when the menu is built (one entry per
    menu item), [None] when no menu is shown (no match, or a single
    match inserted directly). *)
Definition menuUsers (nm : string) (a : Account.t)
    : Js.Completion (option (list (option User.t))) :=
  match Account.findUsersByName nm a with
  | Js.Throw e => Js.Throw e
  | Js.Normal (found, exactIndex) =>
      if (length found =? 1)%nat then Js.Normal None
      else if (length found =? 0)%nat then Js.Normal None
      else match exactIndex with
           | Some i => Js.Normal (Some (unshiftSplice i found))
           | None => Js.Normal (Some (Some <$> found))
           end
  end.

(** The [normalizeId] template helper, for a string id:
    ['msg' + String(id).replace('.', '_')]. *)
Definition normalizeId (id : string) : string :=
  String.append "msg" (Js.replaceFirst "."%char "_"%char id).

(** *** The chat box as a state machine

    The fields of [ChatBox] that its handlers read and write; the GUI
    objects (browser, reply entry, channel header), the message list's
    methods and the subscriptions are driven through [Effect]s, recorded
    in call order. *)

Record t : Type := mk {
  messageList : option MessageList.t;
  subscription : bool;                 (* [this.subscription] is not null *)
  messagesLoaded : bool;
  isSendingReply : bool;
  isDisplaying : bool;
  pendingMessages : list Message.t;
  threadId : option string
}.

Inductive Effect : Type :=
| DetachOnMessage
| DetachOnDeleteMessage
| DetachOnModifyMessage
| StopReceiving (ml : MessageList.t)
| Select (ml : MessageList.t)
| Deselect (ml : MessageList.t)
| NotifyRead (ml : MessageList.t)
| SendMessage (ml : MessageList.t) (text : string)
| HeaderUnload
| AddMessage (message : Message.t) (firstUnread fromCurrentUser : bool)
| DeleteMessage (id : string)
| EntrySetEnabled (enabled : bool)
| EntryFocus
| EntrySetText (text : string)
| AdjustEntryHeight
| ConsoleError.

(** What a handler leaves: the box afterwards, the effects it had, and
    how it completed. *)
Definition Step (A : Type) : Type := (t * list Effect * Js.Completion A)%type.

(** [unload()] *)
Definition unload (s : t) : Step unit :=
  let e1 := if subscription s
            then [DetachOnMessage; DetachOnDeleteMessage; DetachOnModifyMessage]
            else [] in
  match messageList s with
  | Some ml =>
      let e2 := StopReceiving ml :: (if isDisplaying s then [Deselect ml] else []) in
      (mk None false false (isSendingReply s) false [] (threadId s),
       e1 ++ e2 ++ [HeaderUnload], Js.Normal tt)
  | None =>
      (mk None false (messagesLoaded s) (isSendingReply s) (isDisplaying s)
          (pendingMessages s) (threadId s),
       e1 ++ [HeaderUnload], Js.Normal tt)
  end.

(** The thread filter at the head of [newMessage] ([this.threadId] is
    [undefined] unless it was set from outside the class):
    [this.threadId && this.threadId !== message.threadId]. *)
Definition otherThread (s : t) (message : Message.t) : bool :=
  Js.truthy (threadId s) &&
  negb (bool_decide (threadId s = Message.threadId message)).

(** [newMessage(message)] *)
Definition newMessage (message : Message.t) (s : t) : Step unit :=
  if otherThread s message then (s, [], Js.Normal tt)
  else if negb (messagesLoaded s) then
    (mk (messageList s) (subscription s) (messagesLoaded s) (isSendingReply s)
        (isDisplaying s) (pendingMessages s ++ [message]) (threadId s),
     [], Js.Normal tt)
  else
    match messageList s with
    | None => (s, [], Js.Throw Js.TypeError)
    | Some ml =>
        let firstUnread :=
          bool_decide (Some (Message.timestamp message) = MessageList.firstUnreadTs ml) in
        let fromCurrentUser :=
          bool_decide (Some (Message.userId message)
                       = Account.currentUserId (MessageList.account ml)) in
        (s, [AddMessage message firstUnread fromCurrentUser], Js.Normal tt)
    end.

(** [deleteMessage(id, timestamp)] *)
Definition deleteMessage (id timestamp : string) (s : t) : Step unit :=
  if messagesLoaded s then (s, [DeleteMessage id], Js.Normal tt)
  else (s, [], Js.Normal tt).

(** The loop [for (const m of this.pendingMessages) this.newMessage(m)]. *)
Fixpoint flushPending (ms : list Message.t) (s : t) : Step unit :=
  match ms with
  | [] => (s, [], Js.Normal tt)
  | m :: ms' =>
      match newMessage m s with
      | (s1, e1, Js.Normal _) =>
          match flushPending ms' s1 with
          | (s2, e2, c) => (s2, e1 ++ e2, c)
          end
      | (s1, e1, Js.Throw err) => (s1, e1, Js.Throw err)
      end
  end.

(** [ready()]; [active] is what [this.mainWindow.window.isActive()]
    answers. *)
Definition ready (active : bool) (s : t) : Step unit :=
  let s0 := mk (messageList s) (subscription s) true (isSendingReply s)
               (isDisplaying s) (pendingMessages s) (threadId s) in
  let e0 := [EntrySetEnabled true; EntryFocus] in
  match flushPending (pendingMessages s0) s0 with
  | (s1, e1, Js.Throw err) => (s1, e0 ++ e1, Js.Throw err)
  | (s1, e1, Js.Normal _) =>
      let s2 := mk (messageList s1) (subscription s1) (messagesLoaded s1)
                   (isSendingReply s1) (isDisplaying s1) [] (threadId s1) in
      let s3 := if active
                then mk (messageList s2) (subscription s2) (messagesLoaded s2)
                        (isSendingReply s2) true (pendingMessages s2) (threadId s2)
                else s2 in
      match messageList s3 with
      | None => (s3, e0 ++ e1, Js.Throw Js.TypeError)
      | Some ml =>
          (s3, e0 ++ e1 ++ (if active then [Select ml] else []) ++ [NotifyRead ml],
           Js.Normal tt)
      end
  end.

(** [notifyDisplaying()] *)
Definition notifyDisplaying (s : t) : Step unit :=
  if messagesLoaded s && negb (isDisplaying s) then
    let s' := mk (messageList s) (subscription s) (messagesLoaded s)
                 (isSendingReply s) true (pendingMessages s) (threadId s) in
    match messageList s' with
    | None => (s', [], Js.Throw Js.TypeError)
    | Some ml => (s', [Select ml], Js.Normal tt)
    end
  else (s, [], Js.Normal tt).

(** [notifyNotDisplaying()] *)
Definition notifyNotDisplaying (s : t) : Step unit :=
  if isDisplaying s then
    let s' := mk (messageList s) (subscription s) (messagesLoaded s)
                 (isSendingReply s) false (pendingMessages s) (threadId s) in
    match messageList s' with
    | None => (s', [], Js.Throw Js.TypeError)
    | Some ml => (s', [Deselect ml], Js.Normal tt)
    end
  else (s, [], Js.Normal tt).

(** [handleEnter(replyEntry)]: [shiftPressed] is what
    [gui.Event.isShiftPressed()] answers and [text] what
    [replyEntry.getText()] returns; the result tells whether a new line is
    to be inserted. *)
Definition handleEnter (shiftPressed : bool) (text : string) (s : t) : Step bool :=
  if shiftPressed then (s, [], Js.Normal true)
  else if (String.length (Js.trim text) =? 0)%nat
          || negb (bool_decide (is_Some (messageList s)))
          || isSendingReply s
  then (s, [], Js.Normal false)
  else
    let s' := mk (messageList s) (subscription s) (messagesLoaded s) true
                 (isDisplaying s) (pendingMessages s) (threadId s) in
    match messageList s' with
    | Some ml => (s', [EntrySetEnabled false; SendMessage ml text], Js.Normal false)
    | None => (s', [EntrySetEnabled false], Js.Throw Js.TypeError)
    end.

(** The [then] callback of [handleEnter], run when the send succeeded. *)
Definition sendResolved (s : t) : Step unit :=
  (mk (messageList s) (subscription s) (messagesLoaded s) false
      (isDisplaying s) (pendingMessages s) (threadId s),
   [EntrySetText ""; EntrySetEnabled true; AdjustEntryHeight], Js.Normal tt).

(** The [catch] callback of [handleEnter], run when the send failed. *)
Definition sendRejected (s : t) : Step unit :=
  (mk (messageList s) (subscription s) (messagesLoaded s) false
      (isDisplaying s) (pendingMessages s) (threadId s),
   [ConsoleError; EntrySetEnabled true], Js.Normal tt).

(** The calls the box receives from the page, the window, the message
    list and the reply entry. *)
Inductive Call : Type :=
| CUnload
| CNewMessage (message : Message.t)
| CDeleteMessage (id timestamp : string)
| CReady (active : bool)
| CNotifyDisplaying
| CNotifyNotDisplaying
| CHandleEnter (shiftPressed : bool) (text : string)
| CSendResolved
| CSendRejected.

Definition forget {A} (r : Step A) : Step unit :=
  match r with
  | (s, e, Js.Normal _) => (s, e, Js.Normal tt)
  | (s, e, Js.Throw err) => (s, e, Js.Throw err)
  end.

Definition call (c : Call) (s : t) : Step unit :=
  match c with
  | CUnload => unload s
  | CNewMessage m => newMessage m s
  | CDeleteMessage i ts => deleteMessage i ts s
  | CReady active => ready active s
  | CNotifyDisplaying => notifyDisplaying s
  | CNotifyNotDisplaying => notifyNotDisplaying s
  | CHandleEnter shift text => forget (handleEnter shift text s)
  | CSendResolved => sendResolved s
  | CSendRejected => sendRejected s
  end.

(** A sequence of calls, one after the other; it stops at the first one
    that throws. *)
Fixpoint run (cs : list Call) (s : t) : Step unit :=
  match cs with
  | [] => (s, [], Js.Normal tt)
  | c :: cs' =>
      match call c s with
      | (s1, e1, Js.Normal _) =>
          match run cs' s1 with
          | (s2, e2, r) => (s2, e1 ++ e2, r)
          end
      | (s1, e1, Js.Throw err) => (s1, e1, Js.Throw err)
      end
  end.

End ChatBox.

(** ** Specification-side vocabulary *)

(** Sum of a sequence of integers. *)
Fixpoint Zsum (l : list Z) : Z :=
  match l with
  | [] => 0
  | x :: l' => x + Zsum l'
  end.

(** An entity that is neither read nor muted. *)
Definition unreadUnmuted (c : Channel.t) : Prop :=
  Channel.isRead c = false ∧ Channel.isMuted c = false.

(** Number of dispatches of the account-level read-state signal. *)
Definition readStateDispatches (evs : list Event) : nat :=
  length (List.filter (fun e => match e with OnUpdateReadState _ => true | _ => false end) evs).

(** [a'] differs from [a] at most in [isRead] and [mentions]. *)
Definition sameOutsideAggregates (a a' : Account.t) : Prop :=
  Account.id a' = Account.id a ∧
  Account.name a' = Account.name a ∧
  Account.icon a' = Account.icon a ∧
  Account.url a' = Account.url a ∧
  Account.channels a' = Account.channels a ∧
  Account.dms a' = Account.dms a ∧
  Account.currentChannelId a' = Account.currentChannelId a ∧
  Account.currentUserId a' = Account.currentUserId a ∧
  Account.currentUserName a' = Account.currentUserName a ∧
  Account.users a' = Account.users a ∧
  Account.userNamesMap a' = Account.userNamesMap a ∧
  Account.status a' = Account.status a ∧
  Account.isChannelsReady a' = Account.isChannelsReady a.

(** The account after child [i] of [channels] (resp. [dms]) had its
    [mentions] changed by [d]. *)
Definition bumpChannel (i : nat) (d : Z) (a : Account.t) : Account.t :=
  Account.setChannels
    (alter (fun c => Channel.withMentions (Channel.mentions c + d) c) i
           (Account.channels a))
    (Account.dms a) a.

Definition bumpDm (i : nat) (d : Z) (a : Account.t) : Account.t :=
  Account.setChannels
    (Account.channels a)
    (alter (fun c => Channel.withMentions (Channel.mentions c + d) c) i
           (Account.dms a)) a.

(** *** User directory *)

(** The bucket key [saveUser] files a name under:
    [name[0].toLowerCase()], undefined for the empty name. *)
Definition firstLetter (nm : string) : option string :=
  Js.toLowerCase <$> Js.charAt0 nm.

(** The lowercased name equals the (lowercased) query. *)
Definition isExact (lowerName : string) (u : User.t) : bool :=
  String.eqb (Js.toLowerCase (User.name u)) lowerName.

(** The lowercased name equals the (lowercased) query or starts with it. *)
Definition nameMatches (lowerName : string) (u : User.t) : bool :=
  isExact lowerName u || String.prefix lowerName (Js.toLowerCase (User.name u)).

(** Position of the last exact match of a sequence of users. *)
Fixpoint lastExact (lowerName : string) (l : list User.t) : option nat :=
  match l with
  | [] => None
  | u :: l' =>
      match lastExact lowerName l' with
      | Some j => Some (S j)
      | None => if isExact lowerName u then Some 0%nat else None
      end
  end.

(** [l] without the first occurrence of [x]. *)
Fixpoint removeFirst (x : Z) (l : list Z) : list Z :=
  match l with
  | [] => []
  | y :: l' => if bool_decide (y = x) then l' else y :: removeFirst x l'
  end.

(** Number of occurrences of an id in a bucket. *)
Definition occurrences (x : Z) (l : list Z) : nat :=
  length (List.filter (fun y => bool_decide (y = x)) l).

(** I1 for one account: every id of [users] occurs exactly once in the
    bucket keyed by the first letter of its current name, and in no other
    bucket. *)
Definition indexConsistent (a : Account.t) : Prop :=
  ∀ uid u, Account.users a !! uid = Some u →
    ∃ k bucket,
      firstLetter (User.name u) = Some k ∧
      Account.userNamesMap a !! k = Some bucket ∧
      occurrences uid bucket = 1%nat ∧
      ∀ k' bucket', k' ≠ k → Account.userNamesMap a !! k' = Some bucket' →
                    uid ∉ bucket'.

(** The index only mentions stored users, each under the first letter of
    its name, and every stored user carries the id it is stored under. *)
Definition indexSound (a : Account.t) : Prop :=
  (∀ uid u, Account.users a !! uid = Some u → User.id u = uid) ∧
  (∀ k bucket uid, Account.userNamesMap a !! k = Some bucket → uid ∈ bucket →
     ∃ u, Account.users a !! uid = Some u ∧ firstLetter (User.name u) = Some k).

(** Every bucket key is the key of some name: the lowercase of its first
    character. *)
Definition firstLetterKeys (a : Account.t) : Prop :=
  ∀ k, is_Some (Account.userNamesMap a !! k) → ∃ nm, firstLetter nm = Some k.

(** Every stored user has a non-empty name whose bucket exists, and every
    id of a bucket is the id of a stored user: what [saveUser] and
    [findUsersByName] dereference without a check. *)
Definition directoryClosed (a : Account.t) : Prop :=
  (∀ uid u, Account.users a !! uid = Some u →
     ∃ k, firstLetter (User.name u) = Some k ∧
          is_Some (Account.userNamesMap a !! k)) ∧
  (∀ k bucket uid, Account.userNamesMap a !! k = Some bucket → uid ∈ bucket →
     is_Some (Account.users a !! uid)).

(** A call [saveUser(u)] that stores again a user under an unchanged
    name. *)
Definition resavesSameName (u : User.t) (a : Account.t) : Prop :=
  ∃ old, Account.users a !! User.id u = Some old ∧ User.name old = User.name u.

(** A sequence of [saveUser] calls, started on [a], none of which saves an
    empty name or re-saves an unchanged name. *)
Fixpoint renamesOnly (us : list User.t) (a : Account.t) : Prop :=
  match us with
  | [] => True
  | u :: us' =>
      User.name u ≠ EmptyString ∧ ¬ resavesSameName u a ∧
      ∀ r a', Account.saveUser u a = Js.Normal (r, a') → renamesOnly us' a'
  end.

(** *** Accounts and users of the scenarios *)

Definition fresh : Account.t :=
  Account.new "slack" (Account.mkConfig "T1" "Team" None None).

Definition alice : User.t := User.mk 1 "Alice".
Definition alex : User.t := User.mk 2 "Alex".
Definition alexander : User.t := User.mk 3 "Alexander".
Definition bob : User.t := User.mk 4 "Bob".

(** The account after the given users were saved in order ([fresh] when a
    call throws). *)
Definition directoryOf (us : list User.t) : Account.t :=
  match Account.saveUsers us fresh with
  | Js.Normal a => a
  | Js.Throw _ => fresh
  end.

(** *** Accounts built by the class itself *)

(** An account obtained from a new one by [saveUser] calls. *)
Definition builtBySaveUser (a : Account.t) : Prop :=
  ∃ serviceId config us,
    Account.saveUsers us (Account.new serviceId config) = Js.Normal a.

(** Every stored user carries the id it is stored under and is listed
    (at least once) in the bucket of the first letter of its name. *)
Definition indexComplete (a : Account.t) : Prop :=
  ∀ uid u, Account.users a !! uid = Some u →
    User.id u = uid ∧
    ∃ k bucket, firstLetter (User.name u) = Some k ∧
                Account.userNamesMap a !! k = Some bucket ∧ uid ∈ bucket.

(** [a'] differs from [a] at most in [users] and [userNamesMap]. *)
Definition sameOutsideDirectory (a a' : Account.t) : Prop :=
  Account.id a' = Account.id a ∧
  Account.name a' = Account.name a ∧
  Account.icon a' = Account.icon a ∧
  Account.url a' = Account.url a ∧
  Account.channels a' = Account.channels a ∧
  Account.dms a' = Account.dms a ∧
  Account.currentChannelId a' = Account.currentChannelId a ∧
  Account.currentUserId a' = Account.currentUserId a ∧
  Account.currentUserName a' = Account.currentUserName a ∧
  Account.isRead a' = Account.isRead a ∧
  Account.mentions a' = Account.mentions a ∧
  Account.status a' = Account.status a ∧
  Account.isChannelsReady a' = Account.isChannelsReady a.

(** *** Chat box *)

(** The [window.addMessage] call [newMessage] makes for a message shown
    in the list [ml]. *)
Definition shown (ml : MessageList.t) (m : Message.t) : ChatBox.Effect :=
  ChatBox.AddMessage m
    (bool_decide (Some (Message.timestamp m) = MessageList.firstUnreadTs ml))
    (bool_decide (Some (Message.userId m)
                  = Account.currentUserId (MessageList.account ml))).

(** The message passes the thread filter of the box. *)
Definition accepted (s : ChatBox.t) (m : Message.t) : bool :=
  negb (ChatBox.otherThread s m).

(** Replays the [select]/[deselect] calls of a run on the displaying flag
    [b]: [None] when a list is selected twice in a row or deselected while
    not selected, the flag at the end otherwise. *)
Fixpoint selectBalance (b : bool) (effs : list ChatBox.Effect) : option bool :=
  match effs with
  | [] => Some b
  | ChatBox.Select _ :: effs' => if b then None else selectBalance true effs'
  | ChatBox.Deselect _ :: effs' => if b then selectBalance false effs' else None
  | _ :: effs' => selectBalance b effs'
  end.

(** A box that is loaded or displaying has a message list. *)
Definition boxConsistent (s : ChatBox.t) : Prop :=
  (ChatBox.messagesLoaded s = true → is_Some (ChatBox.messageList s)) ∧
  (ChatBox.isDisplaying s = true → is_Some (ChatBox.messageList s)).

(** Along the calls [cs] started in [s], the page reports [ready] only to
    a box that has a message list and is not displaying yet. *)
Fixpoint readyWhenHidden (cs : list ChatBox.Call) (s : ChatBox.t) : Prop :=
  match cs with
  | [] => True
  | c :: cs' =>
      match c with
      | ChatBox.CReady _ =>
          is_Some (ChatBox.messageList s) ∧ ChatBox.isDisplaying s = false
      | _ => True
      end ∧
      readyWhenHidden cs' (ChatBox.call c s).1.1
  end.

(** Number of [sendMessage] calls among the effects. *)
Definition sends (effs : list ChatBox.Effect) : nat :=
  length (List.filter (fun e => match e with ChatBox.SendMessage _ _ => true | _ => false end) effs).

(** A callback of a pending send. *)
Definition isSettle (c : ChatBox.Call) : bool :=
  match c with
  | ChatBox.CSendResolved | ChatBox.CSendRejected => true
  | _ => false
  end.

(** Only white space. *)
Fixpoint allWhite (s : string) : bool :=
  match s with
  | EmptyString => true
  | String c s' => Js.isWhiteSpace c && allWhite s'
  end.

(** The character occurs in the string. *)
Fixpoint hasChar (c : ascii) (s : string) : bool :=
  match s with
  | EmptyString => false
  | String d s' => Ascii.eqb d c || hasChar c s'
  end.

(** ** Read-state aggregation *)

Section ReadState.

Lemma fold_compute (l : list Channel.t) (r : bool) :
  fold_left Account.compute l r =
  r && forallb (fun c => Channel.isRead c || Channel.isMuted c) l.
Proof.
  revert r. induction l as [|c l IH]; intros r; simpl.
  - by rewrite andb_true_r.
  - rewrite IH. unfold Account.compute.
    destruct (Channel.isRead c || Channel.isMuted c); simpl.
    + done.
    + by rewrite andb_false_r.
Qed.

Lemma computeReadState_forallb (a : Account.t) :
  Account.computeReadState a =
  forallb (fun c => Channel.isRead c || Channel.isMuted c)
          (Account.channels a ++ Account.dms a).
Proof.
  unfold Account.computeReadState. rewrite !fold_compute, forallb_app. simpl.
  apply andb_comm.
Qed.

(** C4. [computeReadState] is [true] on empty collections, and it is
    [false] exactly when some entity of [channels] or [dms] is neither
    read nor muted. *)
Theorem computeReadState_spec :
  (∀ a, Account.computeReadState (Account.setChannels [] [] a) = true) ∧
  (∀ a, Account.computeReadState a = false ↔
        ∃ c, c ∈ Account.channels a ++ Account.dms a ∧ unreadUnmuted c).
Proof.
  split; [done|]. intros a. rewrite computeReadState_forallb.
  generalize (Account.channels a ++ Account.dms a). intros l.
  unfold unreadUnmuted. induction l as [|c l IH]; simpl.
  - split; [done|]. intros (c & Hc & _). by apply elem_of_nil in Hc.
  - rewrite andb_false_iff, IH, orb_false_iff. split.
    + intros [H|(c' & Hin & H)].
      * exists c. split; [left|done].
      * exists c'. split; [by right|done].
    + intros (c' & Hin & H). apply elem_of_cons in Hin as [->|Hin].
      * by left.
      * right. by exists c'.
Qed.

(** C6. [setReadState v] assigns [isRead] only when [v] differs from
    it; two calls in a row with the same [v] dispatch the read-state
    signal at most once, and the second call changes nothing. *)
Theorem setReadState_idempotent (a : Account.t) (v : bool) :
  let r1 := Account.setReadState v a in
  let r2 := Account.setReadState v r1.1 in
  (if bool_decide (Account.isRead a = v)
   then r1 = (a, [])
   else r1 = (Account.setIsRead v a,
              [OnUpdateReadState v; ManagerOnUpdateReadState])) ∧
  Account.isRead r1.1 = v ∧
  r2 = (r1.1, []) ∧
  (readStateDispatches (r1.2 ++ r2.2) ≤ 1)%nat.
Proof.
  unfold Account.setReadState. destruct a as [? ? ? ? ? ? ? ? ? ? ? r ? ? ?].
  destruct r, v; simpl; repeat split; try done; cbn; lia.
Qed.

End ReadState.

(** ** Mention aggregation *)

Section Mentions.

Lemma fold_computeMention (l : list Channel.t) (m : Z) :
  fold_left Account.computeMention l m = m + Zsum (Channel.mentions <$> l).
Proof.
  revert m. induction l as [|c l IH]; intros m; csimpl.
  - lia.
  - rewrite IH. unfold Account.computeMention. lia.
Qed.

Lemma Zsum_app (l k : list Z) : Zsum (l ++ k) = Zsum l + Zsum k.
Proof. induction l as [|x l IH]; simpl; lia. Qed.

Lemma computeMentions_sum (a : Account.t) :
  Account.computeMentions a =
  Zsum (Channel.mentions <$> Account.channels a ++ Account.dms a).
Proof.
  unfold Account.computeMentions.
  rewrite !fold_computeMention, fmap_app, Zsum_app. lia.
Qed.

Lemma Zsum_mentions_alter (l : list Channel.t) (i : nat) (d : Z) :
  (i < length l)%nat →
  Zsum (Channel.mentions <$>
          alter (fun c => Channel.withMentions (Channel.mentions c + d) c) i l)
  = Zsum (Channel.mentions <$> l) + d.
Proof.
  revert i. induction l as [|x l IH]; intros [|i] H; csimpl in *; try lia.
  rewrite IH; lia.
Qed.

Lemma updateMentions_stored (a : Account.t) :
  Account.mentions (Account.updateMentions a).1 = Account.computeMentions a.
Proof.
  unfold Account.updateMentions.
  destruct (Z.eqb_spec (Account.computeMentions a) (Account.mentions a)); simpl; done.
Qed.

Lemma computeMentions_bumpChannel (a : Account.t) (i : nat) (d : Z) :
  (i < length (Account.channels a))%nat →
  Account.computeMentions (bumpChannel i d a) = Account.computeMentions a + d.
Proof.
  intros Hi. rewrite !computeMentions_sum. unfold bumpChannel. simpl.
  rewrite !fmap_app, !Zsum_app, Zsum_mentions_alter; [lia|done].
Qed.

Lemma computeMentions_bumpDm (a : Account.t) (i : nat) (d : Z) :
  (i < length (Account.dms a))%nat →
  Account.computeMentions (bumpDm i d a) = Account.computeMentions a + d.
Proof.
  intros Hi. rewrite !computeMentions_sum. unfold bumpDm. simpl.
  rewrite !fmap_app, !Zsum_app, Zsum_mentions_alter; [lia|done].
Qed.

Lemma bump_mentions_field (a : Account.t) (i : nat) (d : Z) :
  Account.mentions (bumpChannel i d a) = Account.mentions a ∧
  Account.mentions (bumpDm i d a) = Account.mentions a.
Proof. done. Qed.

(** C5. [updateMentions] recomputes the exact sum of [mentions] over
    [channels] and [dms] (0 when both are empty); when the sum differs
    from the stored count it stores it and fires the mention signal,
    otherwise it changes nothing and fires nothing; so, starting from a
    stored count that is the sum, changing one child's mentions by [d]
    and calling [updateMentions] changes the stored count by [d]. *)
Theorem updateMentions_spec :
  (∀ a, Account.computeMentions a =
        Zsum (Channel.mentions <$> Account.channels a ++ Account.dms a)) ∧
  (∀ a, Account.computeMentions (Account.setChannels [] [] a) = 0) ∧
  (∀ a, Account.computeMentions a ≠ Account.mentions a →
        Account.updateMentions a =
        (Account.setMentions (Account.computeMentions a) a,
         [OnUpdateMentions; ManagerUpdateMentions])) ∧
  (∀ a, Account.computeMentions a = Account.mentions a →
        Account.updateMentions a = (a, [])) ∧
  (∀ a i d, Account.mentions a = Account.computeMentions a →
        ((i < length (Account.channels a))%nat →
         Account.mentions (Account.updateMentions (bumpChannel i d a)).1
         = Account.mentions a + d) ∧
        ((i < length (Account.dms a))%nat →
         Account.mentions (Account.updateMentions (bumpDm i d a)).1
         = Account.mentions a + d)) ∧
  (∀ a i d, let a1 := (Account.updateMentions a).1 in
        ((i < length (Account.channels a))%nat →
         Account.mentions (Account.updateMentions (bumpChannel i d a1)).1
         = Account.mentions a1 + d) ∧
        ((i < length (Account.dms a))%nat →
         Account.mentions (Account.updateMentions (bumpDm i d a1)).1
         = Account.mentions a1 + d)).
Proof.
  assert (Hdelta : ∀ a i d, Account.mentions a = Account.computeMentions a →
        ((i < length (Account.channels a))%nat →
         Account.mentions (Account.updateMentions (bumpChannel i d a)).1
         = Account.mentions a + d) ∧
        ((i < length (Account.dms a))%nat →
         Account.mentions (Account.updateMentions (bumpDm i d a)).1
         = Account.mentions a + d)).
  { intros a i d HI3. split; intros Hi; rewrite updateMentions_stored.
    - rewrite computeMentions_bumpChannel; [lia|done].
    - rewrite computeMentions_bumpDm; [lia|done]. }
  split; [exact computeMentions_sum|].
  split; [done|].
  split.
  { intros a Hne. unfold Account.updateMentions.
    by destruct (Z.eqb_spec (Account.computeMentions a) (Account.mentions a)). }
  split.
  { intros a Heq. unfold Account.updateMentions.
    by destruct (Z.eqb_spec (Account.computeMentions a) (Account.mentions a)). }
  split; [exact Hdelta|].
  intros a i d a1.
  assert (Hfr : Account.channels a1 = Account.channels a ∧
                Account.dms a1 = Account.dms a).
  { unfold a1, Account.updateMentions.
    by destruct (negb (Account.computeMentions a =? Account.mentions a)). }
  destruct Hfr as [Hc Hd]. rewrite <- Hc, <- Hd. apply Hdelta.
  unfold a1 at 1. rewrite updateMentions_stored.
  unfold Account.computeMentions. by rewrite Hc, Hd.
Qed.

(** Witness for C5: one channel with 2 mentions, one DM with 3, stored
    count 5; two more mentions on the channel give 7. *)
Lemma updateMentions_spec_witness :
  let a := Account.setMentions 5
             (Account.setChannels
                [Channel.mk "C1" false false 2 None]
                [Channel.mk "D1" true false 3 (Some 7)]
                (Account.new "slack" (Account.mkConfig "team" "Team" None None))) in
  Account.mentions (Account.updateMentions (bumpChannel 0 2 a)).1 = 7.
Proof.
  intros a.
  destruct updateMentions_spec as (_ & _ & _ & _ & H & _).
  destruct (H a 0%nat 2) as [Hc _]; [reflexivity|].
  rewrite Hc; [reflexivity | simpl; lia].
Defined.

End Mentions.

(** ** Frame of the aggregate updates *)

Section Frame.

Lemma sameOutsideAggregates_refl (a : Account.t) : sameOutsideAggregates a a.
Proof. by repeat split. Qed.

(** C10. [setReadState], [updateReadState] and [updateMentions] change
    at most [isRead] and [mentions]; the first two leave [mentions]
    alone and the last one leaves [isRead] alone. *)
Theorem aggregate_updates_frame (a : Account.t) (v : bool) :
  (sameOutsideAggregates a (Account.setReadState v a).1 ∧
   Account.mentions (Account.setReadState v a).1 = Account.mentions a) ∧
  (sameOutsideAggregates a (Account.updateReadState a).1 ∧
   Account.mentions (Account.updateReadState a).1 = Account.mentions a) ∧
  (sameOutsideAggregates a (Account.updateMentions a).1 ∧
   Account.isRead (Account.updateMentions a).1 = Account.isRead a).
Proof.
  assert (Hset : ∀ r, sameOutsideAggregates a (Account.setReadState r a).1 ∧
     Account.mentions (Account.setReadState r a).1 = Account.mentions a).
  { intros r. unfold Account.setReadState.
    destruct (negb (Bool.eqb (Account.isRead a) r)); simpl;
      split; try done; apply sameOutsideAggregates_refl. }
  split; [apply Hset|]. split; [apply Hset|].
  unfold Account.updateMentions.
  destruct (negb (Account.computeMentions a =? Account.mentions a)); simpl;
    split; try done; apply sameOutsideAggregates_refl.
Qed.

End Frame.

(** ** Lifecycle methods of the base class *)

Section Lifecycle.

(** C8. On the base class, [disconnect], [reload], [getAllChannels],
    [join] and [leave] never complete normally: the promise each returns
    is rejected with a plain [Error] (its name is "Error") whose message
    is "Should be implemented by subclass". *)
Theorem lifecycle_not_implemented (a : Account.t) (channel : Channel.t) :
  (Account.disconnect a
   = Js.Rejected (Js.ErrorMsg "Should be implemented by subclass") ∧
   Account.reload a
   = Js.Rejected (Js.ErrorMsg "Should be implemented by subclass") ∧
   Account.getAllChannels a
   = Js.Rejected (Js.ErrorMsg "Should be implemented by subclass") ∧
   Account.join channel a
   = Js.Rejected (Js.ErrorMsg "Should be implemented by subclass") ∧
   Account.leave channel a
   = Js.Rejected (Js.ErrorMsg "Should be implemented by subclass")) ∧
  (∀ e, Account.disconnect a = Js.Rejected e ∨ Account.reload a = Js.Rejected e ∨
        Account.getAllChannels a = Js.Rejected e ∨
        Account.join channel a = Js.Rejected e ∨
        Account.leave channel a = Js.Rejected e →
        Js.errorName e = "Error"%string) ∧
  (∀ r, Account.disconnect a ≠ Js.Fulfilled r) ∧
  (∀ r, Account.reload a ≠ Js.Fulfilled r) ∧
  (∀ r, Account.getAllChannels a ≠ Js.Fulfilled r) ∧
  (∀ r, Account.join channel a ≠ Js.Fulfilled r) ∧
  (∀ r, Account.leave channel a ≠ Js.Fulfilled r).
Proof.
  split; [by repeat split|]. split.
  - intros e [H|[H|[H|[H|H]]]]; injection H as <-; reflexivity.
  - repeat split; intros r H; discriminate H.
Qed.

(** Witness for C8: [reload] on a new account. *)
Lemma lifecycle_not_implemented_witness :
  Js.errorName (Js.ErrorMsg "Should be implemented by subclass") = "Error"%string.
Proof.
  destruct (lifecycle_not_implemented fresh (Channel.mk "C1" true false 0 None))
    as (_ & H & _).
  apply H. right. left. reflexivity.
Defined.

(** C8, counterexample. On a new account none of the five methods is
    rejected with an error named "NotImplementedError". *)
Lemma lifecycle_error_is_not_NotImplementedError :
  let channel := Channel.mk "C1" true false 0 None in
  ¬ (∃ e, Account.disconnect fresh = Js.Rejected e ∧
          Js.errorName e = "NotImplementedError"%string) ∧
  ¬ (∃ e, Account.reload fresh = Js.Rejected e ∧
          Js.errorName e = "NotImplementedError"%string) ∧
  ¬ (∃ e, Account.getAllChannels fresh = Js.Rejected e ∧
          Js.errorName e = "NotImplementedError"%string) ∧
  ¬ (∃ e, Account.join channel fresh = Js.Rejected e ∧
          Js.errorName e = "NotImplementedError"%string) ∧
  ¬ (∃ e, Account.leave channel fresh = Js.Rejected e ∧
          Js.errorName e = "NotImplementedError"%string).
Proof.
  intros channel.
  repeat split; intros (e & He & Hn); injection He as <-; discriminate Hn.
Qed.

End Lifecycle.

(** ** DM lookup by peer *)

Section DmLookup.

(** C9. [findChannelByUserId] looks at [dms] only: a result is a DM
    whose [userId] is the queried id (the first one), the result is
    absent exactly when no DM has that [userId], and [channels] plays no
    part. *)
Theorem findChannelByUserId_dms_only (a : Account.t) (uid : Z) :
  (∀ c, Account.findChannelByUserId uid a = Some c →
        c ∈ Account.dms a ∧ Channel.userId c = Some uid) ∧
  (Account.findChannelByUserId uid a = None ↔
   ∀ c, c ∈ Account.dms a → Channel.userId c ≠ Some uid) ∧
  (∀ cs, Account.findChannelByUserId uid (Account.setChannels cs (Account.dms a) a)
         = Account.findChannelByUserId uid a).
Proof.
  unfold Account.findChannelByUserId. split; [|split; [|done]].
  - intros c H. apply find_some in H as [Hin Hb].
    apply bool_decide_eq_true in Hb. by rewrite <- list_elem_of_In in Hin.
  - split.
    + intros H c Hin Heq. rewrite list_elem_of_In in Hin.
      pose proof (find_none _ _ H c Hin) as Hb. simpl in Hb.
      by apply bool_decide_eq_false in Hb.
    + intros H. destruct (find _ _) as [c|] eqn:E; [|done].
      apply find_some in E as [Hin Hb]. apply bool_decide_eq_true in Hb.
      rewrite <- list_elem_of_In in Hin. by destruct (H c Hin).
Qed.

(** Witness for C9: a channel list and two DMs, the second one with
    peer 7. *)
Lemma findChannelByUserId_dms_only_witness :
  let a := Account.setChannels
             [Channel.mk "C1" true false 0 None]
             [Channel.mk "D1" true false 0 (Some 5);
              Channel.mk "D2" false false 1 (Some 7)] fresh in
  Channel.mk "D2" false false 1 (Some 7) ∈ Account.dms a ∧
  Channel.userId (Channel.mk "D2" false false 1 (Some 7)) = Some 7.
Proof.
  intros a. destruct (findChannelByUserId_dms_only a 7) as [H _].
  apply H. vm_compute. reflexivity.
Defined.

End DmLookup.

(** ** Mention search *)

Section Search.

Lemma stringIndexOf_zero (s p : string) :
  (Js.stringIndexOf s p =? 0) = String.prefix p s.
Proof.
  unfold Js.stringIndexOf. destruct s as [|b s]; cbn [String.index].
  - destruct p; vm_compute; reflexivity.
  - destruct (String.prefix p (String b s)); [done|].
    destruct (String.index 0 p s); [|done].
    apply Z.eqb_neq. lia.
Qed.

Lemma scan_condition (lowerName : string) (u : User.t) :
  (String.eqb (Js.toLowerCase (User.name u)) lowerName
   || (Js.stringIndexOf (Js.toLowerCase (User.name u)) lowerName =? 0))
  = nameMatches lowerName u.
Proof. unfold nameMatches, isExact. by rewrite stringIndexOf_zero. Qed.

Lemma lastExact_snoc (q : string) (l : list User.t) (u : User.t) :
  lastExact q (l ++ [u]) =
  if isExact q u then Some (length l) else lastExact q l.
Proof.
  induction l as [|v l IH]; simpl.
  - by destruct (isExact q u).
  - rewrite IH. destruct (isExact q u); [done|].
    by destruct (lastExact q l).
Qed.

Lemma lastExact_None (q : string) (l : list User.t) :
  lastExact q l = None ↔ ∀ u, u ∈ l → isExact q u = false.
Proof.
  induction l as [|u l IH]; simpl.
  - split; [|done]. intros _ u Hu. by apply elem_of_nil in Hu.
  - destruct (lastExact q l) as [j|] eqn:E.
    + split; [done|]. intros H.
      destruct IH as [_ IH]. discriminate IH.
      intros v Hv. apply H. by right.
    + destruct (isExact q u) eqn:Hu.
      * split; [done|]. intros H. rewrite H in Hu; [done|by left].
      * split; [|done]. intros _ v Hv.
        apply elem_of_cons in Hv as [->|Hv]; [done|]. by apply IH.
Qed.

Lemma lastExact_Some (q : string) (l : list User.t) (i : nat) :
  lastExact q l = Some i →
  ∃ u, l !! i = Some u ∧ isExact q u = true ∧
       ∀ j v, (i < j)%nat → l !! j = Some v → isExact q v = false.
Proof.
  revert i. induction l as [|u l IH]; intros i; simpl; [done|].
  destruct (lastExact q l) as [j|] eqn:E.
  - intros [= <-]. destruct (IH j eq_refl) as (w & Hw & Hex & Hlater).
    exists w. repeat split; try done.
    intros [|j'] v Hlt Hv; [lia|]. simpl in Hv. apply (Hlater j' v); [lia|done].
  - destruct (isExact q u) eqn:Hu; [|done]. intros [= <-].
    exists u. repeat split; try done.
    intros [|j'] v Hlt Hv; [lia|]. simpl in Hv.
    apply (proj1 (lastExact_None q l) E). by eapply list_elem_of_lookup_2.
Qed.

(** Whenever the loop completes, [exactIndex] is the position of the
    last exact match pushed, and at most the limit was collected. *)
Lemma scanBucket_exactIndex (a : Account.t) (q : string) (ids : list Z) :
  ∀ found ei found' ei',
    ei = lastExact q found →
    (length found < MENTION_SEARCH_LIMIT)%nat →
    Account.scanBucket a q ids found ei = Js.Normal (found', ei') →
    ei' = lastExact q found' ∧ (length found' ≤ MENTION_SEARCH_LIMIT)%nat.
Proof.
  induction ids as [|uid ids IH]; intros found ei found' ei' Hei Hlen; simpl.
  - intros [= <- <-]. split; [done|lia].
  - destruct (Account.users a !! uid) as [u|]; [|done].
    rewrite scan_condition. unfold nameMatches.
    fold (isExact q u).
    destruct (isExact q u) eqn:Hex; simpl.
    + destruct (length (found ++ [u]) =? MENTION_SEARCH_LIMIT)%nat eqn:Hl.
      * intros [= <- <-]. rewrite lastExact_snoc, Hex, length_app. simpl.
        apply Nat.eqb_eq in Hl. split; [f_equal; lia|lia].
      * apply IH.
        -- rewrite lastExact_snoc, Hex, length_app. simpl. f_equal. lia.
        -- apply Nat.eqb_neq in Hl. rewrite length_app in *. simpl in *. lia.
    + destruct (String.prefix q (Js.toLowerCase (User.name u))).
      * destruct (length (found ++ [u]) =? MENTION_SEARCH_LIMIT)%nat eqn:Hl.
        -- intros [= <- <-]. rewrite lastExact_snoc, Hex.
           apply Nat.eqb_eq in Hl. split; [done|lia].
        -- apply IH.
           ++ by rewrite lastExact_snoc, Hex.
           ++ apply Nat.eqb_neq in Hl. rewrite length_app in *. simpl in *. lia.
      * by apply IH.
Qed.

(** When every id of the bucket resolves to a user, the loop completes
    and collects the first matches, in bucket order, up to the limit. *)
Lemma scanBucket_found (a : Account.t) (q : string) (ids : list Z) (us : list User.t) :
  Forall2 (fun uid u => Account.users a !! uid = Some u) ids us →
  ∀ found ei,
    (length found < MENTION_SEARCH_LIMIT)%nat →
    ∃ ei', Account.scanBucket a q ids found ei =
           Js.Normal (found ++ take (MENTION_SEARCH_LIMIT - length found)
                                    (List.filter (nameMatches q) us), ei').
Proof.
  induction 1 as [|uid u ids us Hu _ IH]; intros found ei Hlen; simpl.
  - exists ei. by rewrite take_nil, app_nil_r.
  - rewrite Hu, scan_condition.
    destruct (nameMatches q u) eqn:Hm.
    + destruct (length (found ++ [u]) =? MENTION_SEARCH_LIMIT)%nat eqn:Hl.
      * eexists. do 2 f_equal.
        apply Nat.eqb_eq in Hl. rewrite length_app in Hl. simpl in Hl.
        replace (MENTION_SEARCH_LIMIT - length found)%nat with 1%nat by lia.
        simpl. by rewrite take_0.
      * apply Nat.eqb_neq in Hl. rewrite length_app in Hl. simpl in Hl.
        destruct (IH (found ++ [u])
                    (if String.eqb (Js.toLowerCase (User.name u)) q
                     then Some (length (found ++ [u]) - 1)%nat else ei))
          as [ei' Hscan].
        { rewrite length_app. simpl. lia. }
        exists ei'. rewrite Hscan. do 2 f_equal.
        rewrite <- app_assoc. f_equal. rewrite length_app. simpl.
        replace (MENTION_SEARCH_LIMIT - length found)%nat
          with (S (MENTION_SEARCH_LIMIT - (length found + 1)))%nat by lia.
        done.
    + by apply IH.
Qed.

Lemma findUsersByName_exactIndex (a : Account.t) (nm : string)
    (found : list User.t) (ei : option nat) :
  Account.findUsersByName nm a = Js.Normal (found, ei) →
  ei = lastExact (Js.toLowerCase nm) found ∧
  (length found ≤ MENTION_SEARCH_LIMIT)%nat.
Proof.
  unfold Account.findUsersByName.
  destruct (Account.userNamesMap a !! _) as [bucket|].
  - apply scanBucket_exactIndex; [done|]. unfold MENTION_SEARCH_LIMIT. simpl. lia.
  - intros [= <- <-]. split; [done|]. simpl. lia.
Qed.

(** The bucket is named as the method names it: under the property key
    of [name.toLowerCase()[0]]. *)
Lemma findUsersByName_scanned (a : Account.t) (nm : string)
    (bucket : list Z) (us : list User.t) :
  Account.userNamesMap a !! Js.propertyKey (Js.charAt0 (Js.toLowerCase nm))
  = Some bucket →
  mapM (fun uid => Account.users a !! uid) bucket = Some us →
  let found := take MENTION_SEARCH_LIMIT
                    (List.filter (nameMatches (Js.toLowerCase nm)) us) in
  Account.findUsersByName nm a =
  Js.Normal (found, lastExact (Js.toLowerCase nm) found).
Proof.
  intros Hb Hus found.
  apply mapM_Some in Hus.
  destruct (scanBucket_found a (Js.toLowerCase nm) bucket us Hus [] None)
    as [ei Hscan].
  { unfold MENTION_SEARCH_LIMIT. simpl. lia. }
  change (Account.scanBucket a (Js.toLowerCase nm) bucket [] None
          = Js.Normal (found, ei)) in Hscan.
  assert (Hfind : Account.findUsersByName nm a = Js.Normal (found, ei)).
  { unfold Account.findUsersByName. by rewrite Hb. }
  rewrite Hfind. by destruct (findUsersByName_exactIndex _ _ _ _ Hfind) as [-> _].
Qed.

Lemma findUsersByName_bucket (a : Account.t) (nm k : string)
    (bucket : list Z) (us : list User.t) :
  Js.charAt0 (Js.toLowerCase nm) = Some k →
  Account.userNamesMap a !! k = Some bucket →
  mapM (fun uid => Account.users a !! uid) bucket = Some us →
  let found := take MENTION_SEARCH_LIMIT
                    (List.filter (nameMatches (Js.toLowerCase nm)) us) in
  Account.findUsersByName nm a =
  Js.Normal (found, lastExact (Js.toLowerCase nm) found).
Proof.
  intros Hk Hb. apply findUsersByName_scanned. by rewrite Hk.
Qed.

End Search.

(** ** The user directory: [saveUser] *)

Section Directory.

Lemma indexOfFrom_removeFirst (x : Z) (l : list Z) :
  ∀ i, 0 <= i →
    (Js.indexOfFrom i x l = -1 ∧ removeFirst x l = l ∧ x ∉ l) ∨
    (i <= Js.indexOfFrom i x l ∧
     delete (Z.to_nat (Js.indexOfFrom i x l - i)) l = removeFirst x l ∧ x ∈ l).
Proof.
  induction l as [|y l IH]; intros i Hi; simpl.
  - left. split; [done|]. split; [done|]. apply not_elem_of_nil.
  - case_bool_decide as Hy.
    + right. subst y. rewrite Z.sub_diag. simpl.
      split; [lia|]. split; [done|]. by left.
    + destruct (IH (i + 1)) as [(Hr & Hrm & Hnin)|(Hr & Hrm & Hin)]; [lia|..].
      * left. rewrite Hr, Hrm. split; [done|]. split; [done|].
        intros [?|?]%elem_of_cons; [by subst|done].
      * right. split; [lia|]. split; [|by right].
        replace (Z.to_nat (Js.indexOfFrom (i + 1) x l - i))
          with (S (Z.to_nat (Js.indexOfFrom (i + 1) x l - (i + 1)))) by lia.
        simpl. by rewrite Hrm.
Qed.

(** What [indexOf] followed by the guarded [splice] leaves. *)
Lemma indexOf_splice (x : Z) (l : list Z) :
  (if Js.indexOf x l >? -1 then Js.splice1 (Js.indexOf x l) l else l)
  = removeFirst x l.
Proof.
  unfold Js.indexOf, Js.splice1.
  destruct (indexOfFrom_removeFirst x l 0) as [(Hr & Hrm & _)|(Hr & Hrm & _)];
    [lia|..].
  - by rewrite Hr, Hrm.
  - rewrite Z.sub_0_r in Hrm. rewrite Hrm.
    destruct (Z.gtb_spec (Js.indexOfFrom 0 x l) (-1)); [done|lia].
Qed.

Lemma deleteOldReference_new (newUser : User.t) (a : Account.t) :
  Account.users a !! User.id newUser = None →
  Account.deleteOldReference newUser a = Js.Normal (Account.userNamesMap a).
Proof. intros H. unfold Account.deleteOldReference. by rewrite H. Qed.

Lemma deleteOldReference_same (newUser oldUser : User.t) (a : Account.t) :
  Account.users a !! User.id newUser = Some oldUser →
  User.name oldUser = User.name newUser →
  Account.deleteOldReference newUser a = Js.Normal (Account.userNamesMap a).
Proof.
  intros H Hn. unfold Account.deleteOldReference.
  by rewrite H, Hn, String.eqb_refl.
Qed.

Lemma deleteOldReference_rename (newUser oldUser : User.t) (a : Account.t)
    (kOld : string) (bucket : list Z) :
  Account.users a !! User.id newUser = Some oldUser →
  User.name oldUser ≠ User.name newUser →
  firstLetter (User.name oldUser) = Some kOld →
  Account.userNamesMap a !! kOld = Some bucket →
  Account.deleteOldReference newUser a =
  Js.Normal (<[kOld := removeFirst (User.id oldUser) bucket]>
               (Account.userNamesMap a)).
Proof.
  intros H Hn Hk Hb. unfold Account.deleteOldReference. rewrite H.
  apply String.eqb_neq in Hn. rewrite Hn. simpl.
  unfold firstLetter in Hk.
  destruct (Js.charAt0 (User.name oldUser)) as [c|]; [|done].
  simpl in Hk. injection Hk as Hk. rewrite Hk, Hb.
  rewrite <- indexOf_splice.
  destruct (Js.indexOf (User.id oldUser) bucket >? -1); [done|].
  by rewrite insert_id.
Qed.

Lemma pushReference_insert (k : string) (x : Z) (ix : gmap string (list Z)) :
  Account.pushReference k x ix = <[k := default [] (ix !! k) ++ [x]]> ix.
Proof.
  unfold Account.pushReference. destruct (ix !! k) as [b|] eqn:E.
  - by rewrite E.
  - rewrite lookup_insert_eq. simpl. apply insert_insert_eq.
Qed.

Lemma saveUser_eq (newUser : User.t) (a : Account.t) (k : string)
    (ix : gmap string (list Z)) :
  firstLetter (User.name newUser) = Some k →
  Account.deleteOldReference newUser a = Js.Normal ix →
  Account.saveUser newUser a =
  Js.Normal (newUser,
             Account.setUsers (<[User.id newUser := newUser]> (Account.users a))
                              (<[k := default [] (ix !! k) ++ [User.id newUser]]> ix)
                              a).
Proof.
  intros Hk Hd. unfold Account.saveUser, firstLetter in *.
  destruct (Js.charAt0 (User.name newUser)) as [c|]; [|done].
  simpl in Hk. injection Hk as Hk. by rewrite Hd, Hk, pushReference_insert.
Qed.

(** *** List facts about buckets *)

Lemma occurrences_app (x : Z) (l k : list Z) :
  occurrences x (l ++ k) = (occurrences x l + occurrences x k)%nat.
Proof. unfold occurrences. by rewrite List.filter_app, length_app. Qed.

Lemma occurrences_zero (x : Z) (l : list Z) :
  occurrences x l = 0%nat ↔ x ∉ l.
Proof.
  unfold occurrences. induction l as [|y l IH]; simpl.
  - split; [intros _; apply not_elem_of_nil|done].
  - rewrite not_elem_of_cons. case_bool_decide; simpl.
    + split; [done|]. intros [? _]. by subst.
    + rewrite IH. split; [intros ?; split; [congruence|done]|by intros [_ ?]].
Qed.

Lemma occurrences_without_other (x y : Z) (l : list Z) :
  x ≠ y → occurrences x (filter (fun z => z ≠ y) l) = occurrences x l.
Proof.
  intros Hxy. unfold occurrences. induction l as [|z l IH]; [done|].
  rewrite filter_cons. case_decide as Hz; simpl.
  - case_bool_decide; simpl; by rewrite IH.
  - assert (z = y) as -> by by destruct (decide (z = y)).
    rewrite bool_decide_eq_false_2 by done. done.
Qed.

Lemma without_not_elem (x : Z) (l : list Z) :
  x ∉ l → filter (fun z => z ≠ x) l = l.
Proof.
  induction l as [|z l IH]; [done|]. rewrite not_elem_of_cons. intros [Hz Hl].
  rewrite filter_cons_True by done. by rewrite IH.
Qed.

Lemma removeFirst_once (x : Z) (l : list Z) :
  occurrences x l = 1%nat → removeFirst x l = filter (fun z => z ≠ x) l.
Proof.
  induction l as [|z l IH]; [done|]. unfold occurrences. simpl.
  case_bool_decide as Hz; simpl.
  - intros [= H]. subst z. rewrite filter_cons_False by (intros ?; done).
    symmetry. apply without_not_elem. by apply occurrences_zero.
  - intros H. rewrite filter_cons_True by done. by rewrite IH.
Qed.

(** *** Bucket keys *)

(** No name is filed under the key "undefined". *)
Lemma firstLetter_not_undefined (nm : string) :
  firstLetter nm ≠ Some "undefined"%string.
Proof.
  destruct nm as [|c nm]; [done|]. unfold firstLetter.
  change (Js.charAt0 (String c nm)) with (Some (String c EmptyString)).
  destruct c as [[|] [|] [|] [|] [|] [|] [|] [|]]; vm_compute; discriminate.
Qed.

Lemma firstLetter_nonempty (nm : string) :
  nm ≠ EmptyString → is_Some (firstLetter nm).
Proof. destruct nm; [done|]. by eexists. Qed.

Lemma deleteOldReference_keys (newUser : User.t) (a : Account.t)
    (ix : gmap string (list Z)) (k : string) :
  Account.deleteOldReference newUser a = Js.Normal ix →
  is_Some (ix !! k) → is_Some (Account.userNamesMap a !! k).
Proof.
  unfold Account.deleteOldReference.
  destruct (Account.users a !! User.id newUser) as [old|]; [|by intros [= <-]].
  destruct (negb _); [|by intros [= <-]].
  destruct (Js.charAt0 (User.name old)) as [c|]; [|done].
  destruct (Account.userNamesMap a !! Js.toLowerCase c) as [b|] eqn:E; [|done].
  destruct (_ >? _); intros [= <-]; [|done].
  destruct (decide (Js.toLowerCase c = k)) as [<-|Hne].
  - by rewrite E.
  - by rewrite lookup_insert_ne.
Qed.

Lemma saveUser_firstLetterKeys (u r : User.t) (a a' : Account.t) :
  firstLetterKeys a → Account.saveUser u a = Js.Normal (r, a') →
  firstLetterKeys a'.
Proof.
  intros Hkeys. unfold Account.saveUser.
  destruct (Js.charAt0 (User.name u)) as [c|] eqn:Hc; [|done].
  destruct (Account.deleteOldReference u a) as [ix|] eqn:Hd; [|done].
  intros [= <- <-] k. simpl. rewrite pushReference_insert.
  destruct (decide (Js.toLowerCase c = k)) as [<-|Hne].
  - intros _. exists (User.name u). unfold firstLetter. by rewrite Hc.
  - rewrite lookup_insert_ne by done. intros Hk. apply Hkeys.
    by eapply deleteOldReference_keys.
Qed.

Lemma saveUsers_firstLetterKeys (us : list User.t) :
  ∀ a a', firstLetterKeys a → Account.saveUsers us a = Js.Normal a' →
          firstLetterKeys a'.
Proof.
  induction us as [|u us IH]; intros a a' Hkeys; simpl.
  - by intros [= <-].
  - destruct (Account.saveUser u a) as [[r a1]|] eqn:E; [|done].
    apply IH. by eapply saveUser_firstLetterKeys.
Qed.

Lemma new_firstLetterKeys (serviceId : string) (config : Account.Config) :
  firstLetterKeys (Account.new serviceId config).
Proof. intros k [b Hb]. simpl in Hb. by rewrite lookup_empty in Hb. Qed.

Lemma firstLetterKeys_undefined (a : Account.t) :
  firstLetterKeys a → Account.userNamesMap a !! "undefined"%string = None.
Proof.
  intros Hkeys. destruct (Account.userNamesMap a !! "undefined"%string) eqn:E; [|done].
  destruct (Hkeys "undefined"%string) as [nm Hnm]; [by eexists|].
  by destruct (firstLetter_not_undefined nm).
Qed.

(** Re-saving a stored user under its unchanged name appends its id to
    the bucket once more. *)
Lemma saveUser_resave (u old : User.t) (a : Account.t) (k : string) :
  Account.users a !! User.id u = Some old →
  User.name old = User.name u →
  firstLetter (User.name u) = Some k →
  Account.saveUser u a =
  Js.Normal (u, Account.setUsers
                  (<[User.id u := u]> (Account.users a))
                  (<[k := default [] (Account.userNamesMap a !! k) ++ [User.id u]]>
                     (Account.userNamesMap a)) a).
Proof.
  intros Hold Hn Hk. apply saveUser_eq; [done|].
  by eapply deleteOldReference_same.
Qed.

(** *** [saveUser] and [findUsersByName] complete on accounts built by [saveUser] *)

Lemma deleteOldReference_result (u : User.t) (a : Account.t)
    (ix : gmap string (list Z)) :
  Account.deleteOldReference u a = Js.Normal ix →
  ix = Account.userNamesMap a ∨
  ∃ old kOld bucket,
    Account.users a !! User.id u = Some old ∧
    Account.userNamesMap a !! kOld = Some bucket ∧
    ix = <[kOld := removeFirst (User.id old) bucket]> (Account.userNamesMap a).
Proof.
  unfold Account.deleteOldReference.
  destruct (Account.users a !! User.id u) as [old|]; [|intros [= <-]; by left].
  destruct (negb _); [|intros [= <-]; by left].
  destruct (Js.charAt0 (User.name old)) as [c|]; [|done].
  destruct (Account.userNamesMap a !! Js.toLowerCase c) as [b|] eqn:E; [|done].
  pose proof (indexOf_splice (User.id old) b) as Hsp.
  destruct (_ >? _); intros [= <-]; [|by left].
  right. exists old, (Js.toLowerCase c), b. by rewrite Hsp.
Qed.

Lemma removeFirst_subseteq (x y : Z) (l : list Z) :
  y ∈ removeFirst x l → y ∈ l.
Proof.
  induction l as [|z l IH]; simpl; [done|].
  case_bool_decide as Hz; [by right|].
  intros [->|Hin]%elem_of_cons; [by left|right; by apply IH].
Qed.

Lemma saveUser_total (u : User.t) (a : Account.t) :
  directoryClosed a → User.name u ≠ EmptyString →
  ∃ a', Account.saveUser u a = Js.Normal (u, a').
Proof.
  intros [Hnames _] Hname.
  destruct (firstLetter_nonempty _ Hname) as [k Hk].
  destruct (Account.users a !! User.id u) as [old|] eqn:Hold.
  - destruct (decide (User.name old = User.name u)) as [Heq|Hne].
    + eexists. by eapply saveUser_resave.
    + destruct (Hnames _ _ Hold) as (kOld & HkO & [bucket Hb]).
      eexists. apply saveUser_eq; [done|]. by eapply deleteOldReference_rename.
  - eexists. apply saveUser_eq; [done|]. by apply deleteOldReference_new.
Qed.

Lemma saveUser_directoryClosed (u r : User.t) (a a' : Account.t) :
  directoryClosed a → Account.saveUser u a = Js.Normal (r, a') →
  directoryClosed a'.
Proof.
  intros [Hnames Hids]. unfold Account.saveUser.
  destruct (Js.charAt0 (User.name u)) as [c|] eqn:Hc; [|done].
  destruct (Account.deleteOldReference u a) as [ix|] eqn:Hd; [|done].
  intros [= <- <-]. rewrite pushReference_insert.
  assert (Hk : firstLetter (User.name u) = Some (Js.toLowerCase c)).
  { unfold firstLetter. by rewrite Hc. }
  assert (Hkeys : ∀ k, is_Some (Account.userNamesMap a !! k) → is_Some (ix !! k)).
  { intros k Hs. destruct (deleteOldReference_result _ _ _ Hd)
      as [->|(old & kOld & b & _ & _ & ->)]; [done|].
    destruct (decide (kOld = k)) as [<-|?].
    - by rewrite lookup_insert_eq.
    - by rewrite lookup_insert_ne. }
  assert (Hsub : ∀ k b uid, ix !! k = Some b → uid ∈ b →
                            is_Some (Account.users a !! uid)).
  { intros k b uid Hb Hin. destruct (deleteOldReference_result _ _ _ Hd)
      as [->|(old & kOld & b0 & _ & Hb0 & ->)]; [exact (Hids k b uid Hb Hin)|].
    destruct (decide (kOld = k)) as [<-|?].
    - rewrite lookup_insert_eq in Hb. injection Hb as <-.
      apply removeFirst_subseteq in Hin. exact (Hids kOld b0 uid Hb0 Hin).
    - rewrite lookup_insert_ne in Hb by done. exact (Hids k b uid Hb Hin). }
  split; simpl.
  - intros uid v. destruct (decide (User.id u = uid)) as [<-|Hne].
    + rewrite lookup_insert_eq. intros [= <-].
      exists (Js.toLowerCase c). split; [done|]. by rewrite lookup_insert_eq.
    + rewrite lookup_insert_ne by done. intros Hv.
      destruct (Hnames _ _ Hv) as (k & Hkv & Hs). exists k. split; [done|].
      destruct (decide (Js.toLowerCase c = k)) as [<-|?].
      * by rewrite lookup_insert_eq.
      * rewrite lookup_insert_ne by done. by apply Hkeys.
  - intros k b uid Hb Hin.
    destruct (decide (User.id u = uid)) as [<-|Hne];
      [by rewrite lookup_insert_eq|].
    rewrite lookup_insert_ne by done.
    destruct (decide (Js.toLowerCase c = k)) as [<-|?].
    + rewrite lookup_insert_eq in Hb. injection Hb as <-.
      apply elem_of_app in Hin as [Hin|Hin].
      * destruct (ix !! Js.toLowerCase c) as [b|] eqn:E; simpl in Hin.
        -- exact (Hsub _ b uid E Hin).
        -- by apply elem_of_nil in Hin.
      * apply list_elem_of_singleton in Hin. by subst.
    + rewrite lookup_insert_ne in Hb by done. exact (Hsub k b uid Hb Hin).
Qed.

Lemma saveUsers_directoryClosed (us : list User.t) :
  ∀ a a', directoryClosed a → Account.saveUsers us a = Js.Normal a' →
          directoryClosed a'.
Proof.
  induction us as [|u us IH]; intros a a' Hcl; simpl.
  - by intros [= <-].
  - destruct (Account.saveUser u a) as [[r a1]|] eqn:E; [|done].
    apply IH. by eapply saveUser_directoryClosed.
Qed.

Lemma new_directoryClosed (serviceId : string) (config : Account.Config) :
  directoryClosed (Account.new serviceId config).
Proof.
  split.
  - intros uid u H. simpl in H. by rewrite lookup_empty in H.
  - intros k b uid H. simpl in H. by rewrite lookup_empty in H.
Qed.

(** *** I1 along calls that do not re-save an unchanged name *)

(** After its first half, [saveUser u] has cleared the id of [u] from
    every bucket and left the other ids alone. *)
Lemma deleteOldReference_clears (u : User.t) (a : Account.t) :
  indexSound a → indexConsistent a → ¬ resavesSameName u a →
  ∃ ix, Account.deleteOldReference u a = Js.Normal ix ∧
        ∀ k, ix !! k = filter (fun z => z ≠ User.id u) <$> Account.userNamesMap a !! k.
Proof.
  intros [Hid Hsound] Hcons Hfresh.
  destruct (Account.users a !! User.id u) as [old|] eqn:Hold.
  - destruct (Hcons _ _ Hold) as (kOld & bucket & HkO & Hb & Hocc & Hother).
    assert (Hne : User.name old ≠ User.name u).
    { intros Heq. apply Hfresh. by exists old. }
    exists (<[kOld := removeFirst (User.id old) bucket]> (Account.userNamesMap a)).
    split; [by apply deleteOldReference_rename|].
    rewrite (Hid _ _ Hold). intros k.
    destruct (decide (kOld = k)) as [<-|Hk].
    + rewrite lookup_insert_eq, Hb. simpl. f_equal. by apply removeFirst_once.
    + rewrite lookup_insert_ne by done.
      destruct (Account.userNamesMap a !! k) as [b|] eqn:E; [|done]. simpl.
      f_equal. symmetry. apply without_not_elem. by apply (Hother k).
  - exists (Account.userNamesMap a). split; [by apply deleteOldReference_new|].
    intros k. destruct (Account.userNamesMap a !! k) as [b|] eqn:E; [|done].
    simpl. f_equal. symmetry. apply without_not_elem. intros Hin.
    destruct (Hsound _ _ _ E Hin) as (v & Hv & _). by rewrite Hold in Hv.
Qed.

Lemma saveUser_preserves_index (u : User.t) (a : Account.t) :
  indexSound a → indexConsistent a →
  User.name u ≠ EmptyString → ¬ resavesSameName u a →
  ∃ a', Account.saveUser u a = Js.Normal (u, a') ∧
        indexSound a' ∧ indexConsistent a'.
Proof.
  intros Hsound Hcons Hname Hfresh.
  destruct (firstLetter_nonempty _ Hname) as [k Hk].
  destruct (deleteOldReference_clears u a Hsound Hcons Hfresh) as (ix & Hd & Hix).
  eexists. split; [by apply saveUser_eq|].
  destruct Hsound as [Hid Hsound].
  set (x := User.id u) in *.
  assert (Hnew : ∀ k' b', (<[k := default [] (ix !! k) ++ [x]]> ix) !! k' = Some b' →
     ∃ b, b' = filter (fun z => z ≠ x) b ++ (if decide (k = k') then [x] else []) ∧
          (k ≠ k' → Account.userNamesMap a !! k' = Some b) ∧
          (k = k' → Account.userNamesMap a !! k' = Some b ∨
                    (Account.userNamesMap a !! k' = None ∧ b = []))).
  { intros k' b'. destruct (decide (k = k')) as [<-|Hne].
    - rewrite lookup_insert_eq, Hix. intros [= <-].
      destruct (Account.userNamesMap a !! k) as [b|]; simpl.
      + exists b. split; [done|]. split; [done|]. by left.
      + exists []. split; [done|]. split; [done|]. by right.
    - rewrite lookup_insert_ne, Hix by done.
      destruct (Account.userNamesMap a !! k') as [b|]; simpl; [|done].
      intros [= <-]. exists b. rewrite app_nil_r. split; [done|].
      split; [done|]. intros ?. by left. }
  split; [split|]; simpl.
  - intros uid v. destruct (decide (x = uid)) as [<-|Hne].
    + rewrite lookup_insert_eq. by intros [= <-].
    + rewrite lookup_insert_ne by done. apply Hid.
  - intros k' b' uid Hb' Hin.
    destruct (Hnew _ _ Hb') as (b & -> & Hne & Heq).
    apply elem_of_app in Hin as [Hin|Hin].
    + apply list_elem_of_filter in Hin as [Hux Hin].
      rewrite lookup_insert_ne by done.
      assert (Hb : Account.userNamesMap a !! k' = Some b).
      { destruct (decide (k = k')) as [e|n]; [|by apply Hne].
        destruct (Heq e) as [?|[_ ->]]; [done|]. by apply elem_of_nil in Hin. }
      by apply (Hsound k' b).
    + destruct (decide (k = k')) as [<-|?]; [|by apply elem_of_nil in Hin].
      apply list_elem_of_singleton in Hin as ->.
      exists u. by rewrite lookup_insert_eq.
  - intros uid v. simpl. destruct (decide (x = uid)) as [<-|Hux].
    + rewrite lookup_insert_eq. intros [= <-].
      exists k, (default [] (ix !! k) ++ [x]).
      split; [done|]. split; [by rewrite lookup_insert_eq|]. split.
      * rewrite occurrences_app, Hix.
        assert (H0 : ∀ l, occurrences x (filter (fun z => z ≠ x) l) = 0%nat).
        { intros l. apply occurrences_zero.
          intros H%list_elem_of_filter. by destruct H. }
        destruct (Account.userNamesMap a !! k); simpl.
        -- rewrite H0. unfold occurrences. simpl.
           by rewrite bool_decide_eq_true_2.
        -- unfold occurrences. simpl. by rewrite bool_decide_eq_true_2.
      * intros k' b' Hk' Hb'. rewrite lookup_insert_ne, Hix in Hb' by done.
        destruct (Account.userNamesMap a !! k'); simpl in Hb'; [|done].
        injection Hb' as <-. intros H%list_elem_of_filter. by destruct H.
    + rewrite lookup_insert_ne by done. intros Hv.
      destruct (Hcons _ _ Hv) as (kv & bv & Hkv & Hbv & Hocc & Hother).
      exists kv. destruct (decide (k = kv)) as [<-|Hkk].
      * exists (filter (fun z => z ≠ x) bv ++ [x]). split; [done|].
        split; [by rewrite lookup_insert_eq, Hix, Hbv|]. split.
        -- rewrite occurrences_app, occurrences_without_other by done.
           rewrite Hocc. unfold occurrences. simpl.
           rewrite bool_decide_eq_false_2; [done|congruence].
        -- intros k' b' Hk' Hb'. rewrite lookup_insert_ne, Hix in Hb' by done.
           destruct (Account.userNamesMap a !! k') as [b|] eqn:E;
             simpl in Hb'; [|done].
           injection Hb' as <-. intros [_ H]%list_elem_of_filter.
           by apply (Hother k' b).
      * exists (filter (fun z => z ≠ x) bv). split; [done|].
        split; [by rewrite lookup_insert_ne, Hix, Hbv|]. split.
        -- by rewrite occurrences_without_other.
        -- intros k' b' Hk' Hb'.
           destruct (Hnew _ _ Hb') as (b & -> & Hne & Heq).
           intros [[_ Hin]%list_elem_of_filter|Hin]%elem_of_app.
           ++ assert (Hb : Account.userNamesMap a !! k' = Some b).
              { destruct (decide (k = k')) as [e|n]; [|by apply Hne].
                destruct (Heq e) as [?|[_ ->]]; [done|].
                by apply elem_of_nil in Hin. }
              by apply (Hother k' b).
           ++ destruct (decide (k = k')); [|by apply elem_of_nil in Hin].
              apply list_elem_of_singleton in Hin. congruence.
Qed.

Lemma fresh_index (serviceId : string) (config : Account.Config) :
  indexSound (Account.new serviceId config) ∧
  indexConsistent (Account.new serviceId config).
Proof.
  split; [split|].
  - intros uid u H. simpl in H. by rewrite lookup_empty in H.
  - intros k b uid H. simpl in H. by rewrite lookup_empty in H.
  - intros uid u H. simpl in H. by rewrite lookup_empty in H.
Qed.

(** I1 holds after every sequence of calls that are first saves or
    renames. *)
Lemma saveUsers_preserve_index (us : list User.t) :
  ∀ a, indexSound a → indexConsistent a → renamesOnly us a →
       ∃ a', Account.saveUsers us a = Js.Normal a' ∧
             indexSound a' ∧ indexConsistent a'.
Proof.
  induction us as [|u us IH]; intros a Hs Hc Hr; simpl.
  - by exists a.
  - destruct Hr as (Hname & Hfresh & Hrest).
    destruct (saveUser_preserves_index u a Hs Hc Hname Hfresh)
      as (a1 & Hsave & Hs1 & Hc1).
    rewrite Hsave. apply IH; try done. by apply (Hrest u).
Qed.

(** The scenario of C7 is such a sequence. *)
Example renamesOnly_bob_robert :
  renamesOnly [User.mk 1 "Bob"; User.mk 1 "Robert"] fresh.
Proof.
  split; [done|]. split.
  { intros (old & Hold & _). vm_compute in Hold. discriminate Hold. }
  intros r a' Hsave. vm_compute in Hsave. injection Hsave as <- <-.
  split; [done|]. split; [|done].
  intros (old & Hold & Hname). vm_compute in Hold. injection Hold as <-.
  discriminate Hname.
Qed.

(** Every re-save of a stored user under its unchanged name breaks I1:
    the id then occurs twice in its bucket. *)
Lemma saveUser_resave_breaks_index (u : User.t) (a : Account.t) :
  indexConsistent a → resavesSameName u a →
  ∃ a', Account.saveUser u a = Js.Normal (u, a') ∧ ¬ indexConsistent a'.
Proof.
  intros Hcons (old & Hold & Hname).
  destruct (Hcons _ _ Hold) as (k & bucket & Hk & Hb & Hocc & _).
  rewrite Hname in Hk.
  eexists. split; [by eapply saveUser_resave|].
  intros Hcons'.
  destruct (Hcons' (User.id u) u) as (k' & bucket' & Hk' & Hb' & Hocc' & _).
  { simpl. apply lookup_insert_eq. }
  simpl in Hb'. rewrite Hk in Hk'. injection Hk' as <-.
  rewrite lookup_insert_eq, Hb in Hb'. simpl in Hb'. injection Hb' as <-.
  rewrite occurrences_app, Hocc in Hocc'. unfold occurrences in Hocc'.
  simpl in Hocc'. rewrite bool_decide_eq_true_2 in Hocc' by done.
  discriminate Hocc'.
Qed.

(** C1 (defect of [saveUser]). Saving [{id:1, name:"Bob"}] twice on a
    fresh account leaves id 1 twice in bucket 'b', so the account no
    longer satisfies I1: the branch that drops the old index entry runs
    only when the name changed. *)
Theorem saveUser_resave_duplicates :
  ∃ a, Account.saveUsers [User.mk 1 "Bob"; User.mk 1 "Bob"] fresh = Js.Normal a ∧
       Account.users a !! 1 = Some (User.mk 1 "Bob") ∧
       Account.userNamesMap a !! "b" = Some [1; 1] ∧
       occurrences 1 [1; 1] = 2%nat ∧
       ¬ indexConsistent a.
Proof.
  eexists. split; [vm_compute; reflexivity|].
  split; [vm_compute; reflexivity|].
  split; [vm_compute; reflexivity|].
  split; [reflexivity|].
  intros Hcons.
  destruct (Hcons 1 (User.mk 1 "Bob")) as (k & bucket & Hk & Hb & Hocc & _).
  { vm_compute; reflexivity. }
  injection Hk as <-.
  assert (Hb' : Some [1; 1] = Some bucket).
  { rewrite <- Hb. vm_compute. reflexivity. }
  injection Hb' as <-. discriminate Hocc.
Qed.

(** C7. On a fresh account, saving [{id:1, name:"Bob"}] and then
    [{id:1, name:"Robert"}] leaves bucket 'b' without id 1 and bucket 'r'
    with id 1 exactly once.  In general, re-saving a stored user under a
    different name removes one entry of its id from the bucket of the
    old name's first letter, then appends the id to the bucket of the
    new name's first letter, stores the new record and returns it; and
    on an account built by [saveUser] calls, [saveUser] of a user with a
    non-empty name always returns that user, stored. *)
Theorem saveUser_rename :
  (∃ a, Account.saveUsers [User.mk 1 "Bob"; User.mk 1 "Robert"] fresh = Js.Normal a ∧
        (∃ b, Account.userNamesMap a !! "b" = Some b ∧ 1 ∉ b) ∧
        (∃ r, Account.userNamesMap a !! "r" = Some r ∧ occurrences 1 r = 1%nat)) ∧
  (∀ a newUser oldUser kOld kNew bucket,
     Account.users a !! User.id newUser = Some oldUser →
     User.name oldUser ≠ User.name newUser →
     firstLetter (User.name oldUser) = Some kOld →
     firstLetter (User.name newUser) = Some kNew →
     Account.userNamesMap a !! kOld = Some bucket →
     let removed := <[kOld := removeFirst (User.id oldUser) bucket]>
                      (Account.userNamesMap a) in
     let a' := Account.setUsers
                 (<[User.id newUser := newUser]> (Account.users a))
                 (<[kNew := default [] (removed !! kNew) ++ [User.id newUser]]>
                    removed) a in
     Account.saveUser newUser a = Js.Normal (newUser, a') ∧
     Account.findUserById (User.id newUser) a' = Some newUser) ∧
  (∀ serviceId config us a u,
     Account.saveUsers us (Account.new serviceId config) = Js.Normal a →
     User.name u ≠ EmptyString →
     ∃ a', Account.saveUser u a = Js.Normal (u, a') ∧
           Account.findUserById (User.id u) a' = Some u).
Proof.
  split; [|split].
  - eexists. split; [vm_compute; reflexivity|]. split.
    + exists []. split; [vm_compute; reflexivity|apply not_elem_of_nil].
    + exists [1]. split; vm_compute; reflexivity.
  - intros a newUser oldUser kOld kNew bucket Hold Hne HkO HkN Hb removed a'.
    split.
    + apply saveUser_eq; [done|]. by eapply deleteOldReference_rename.
    + unfold Account.findUserById, a'. simpl. apply lookup_insert_eq.
  - intros serviceId config us a u Hsave Hname.
    assert (Hcl : directoryClosed a).
    { eapply saveUsers_directoryClosed; [apply new_directoryClosed|exact Hsave]. }
    destruct (saveUser_total u a Hcl Hname) as [a' Ha']. exists a'.
    split; [done|]. unfold Account.saveUser in Ha'.
    destruct (Js.charAt0 (User.name u)); [|done].
    destruct (Account.deleteOldReference u a); [|done].
    injection Ha' as <-. unfold Account.findUserById. simpl.
    apply lookup_insert_eq.
Qed.

(** Witness for C7: Bob (id 1), stored in bucket 'b', renamed Robert. *)
Lemma saveUser_rename_witness :
  ∃ a', Account.saveUser (User.mk 1 "Robert") (directoryOf [User.mk 1 "Bob"])
        = Js.Normal (User.mk 1 "Robert", a') ∧
        Account.userNamesMap a' !! "b" = Some [] ∧
        Account.userNamesMap a' !! "r" = Some [1].
Proof.
  destruct saveUser_rename as (_ & H & _).
  destruct (H (directoryOf [User.mk 1 "Bob"]) (User.mk 1 "Robert")
              (User.mk 1 "Bob") "b"%string "r"%string [1]) as [Hs _];
    [vm_compute; reflexivity | discriminate | reflexivity | reflexivity
    | vm_compute; reflexivity |].
  eexists. split; [exact Hs|]. split; vm_compute; reflexivity.
Defined.

End Directory.

(** ** The search contract and its caller *)

Section SearchContract.

(** C3. [findUsersByName] returns, in bucket order, the users of the
    bucket keyed by the first character of the lowercased query whose
    lowercased name equals or starts with the lowercased query, up to the
    limit of 5, with [exactIndex] the position of the (last) exact match
    among them, absent when there is none; a query for which that bucket
    does not exist, and the empty query on an account built by [saveUser]
    calls, yield no match and no exact index; on such an account every
    query completes.  With Alice, Alex, Alexander and Bob saved in this
    order, "ale" yields Alex and Alexander with no exact index, and "alex"
    yields the same two with [exactIndex] 0, the position of Alex. *)
Theorem findUsersByName_spec :
  (∀ a nm k bucket us,
     Js.charAt0 (Js.toLowerCase nm) = Some k →
     Account.userNamesMap a !! k = Some bucket →
     mapM (fun uid => Account.users a !! uid) bucket = Some us →
     let found := take MENTION_SEARCH_LIMIT
                       (List.filter (nameMatches (Js.toLowerCase nm)) us) in
     Account.findUsersByName nm a =
     Js.Normal (found, lastExact (Js.toLowerCase nm) found)) ∧
  (∀ q found,
     match lastExact q found with
     | Some i => ∃ u, found !! i = Some u ∧ isExact q u = true ∧
                      ∀ j v, (i < j)%nat → found !! j = Some v → isExact q v = false
     | None => ∀ u, u ∈ found → isExact q u = false
     end) ∧
  (∀ a nm k,
     Js.charAt0 (Js.toLowerCase nm) = Some k →
     Account.userNamesMap a !! k = None →
     Account.findUsersByName nm a = Js.Normal ([], None)) ∧
  (∀ serviceId config us a,
     Account.saveUsers us (Account.new serviceId config) = Js.Normal a →
     Account.findUsersByName "" a = Js.Normal ([], None) ∧
     ∀ nm, ∃ found,
       Account.findUsersByName nm a =
       Js.Normal (found, lastExact (Js.toLowerCase nm) found) ∧
       (length found ≤ MENTION_SEARCH_LIMIT)%nat) ∧
  (Account.findUsersByName "ale" (directoryOf [alice; alex; alexander; bob])
   = Js.Normal ([alex; alexander], None) ∧
   Account.findUsersByName "alex" (directoryOf [alice; alex; alexander; bob])
   = Js.Normal ([alex; alexander], Some 0%nat)).
Proof.
  split; [exact findUsersByName_bucket|]. split.
  { intros q found. destruct (lastExact q found) as [i|] eqn:E.
    - by apply lastExact_Some.
    - by apply lastExact_None. }
  split.
  { intros a nm k Hk Hb. unfold Account.findUsersByName.
    by rewrite Hk; simpl; rewrite Hb. }
  split.
  { intros serviceId config us a Hsave.
    assert (Hempty : Account.findUsersByName "" a = Js.Normal ([], None)).
    { unfold Account.findUsersByName. simpl.
      rewrite firstLetterKeys_undefined; [done|].
      eapply saveUsers_firstLetterKeys; [apply new_firstLetterKeys|exact Hsave]. }
    split; [exact Hempty|]. intros nm.
    assert (Hres : ∃ found ei, Account.findUsersByName nm a = Js.Normal (found, ei)).
    { destruct (Account.userNamesMap a
                  !! Js.propertyKey (Js.charAt0 (Js.toLowerCase nm)))
        as [bucket|] eqn:Hb.
      - assert (Hcl : directoryClosed a).
        { eapply saveUsers_directoryClosed; [apply new_directoryClosed|exact Hsave]. }
        destruct (mapM_is_Some_2 (fun uid => Account.users a !! uid) bucket)
          as [us' Hus].
        { apply Forall_forall. intros uid Hin.
          exact (proj2 Hcl _ bucket uid Hb Hin). }
        eexists _, _. by eapply findUsersByName_scanned.
      - exists [], None. unfold Account.findUsersByName. by rewrite Hb. }
    destruct Hres as (found & ei & Hfind). exists found.
    destruct (findUsersByName_exactIndex _ _ _ _ Hfind) as [<- Hlen]. done. }
  split; vm_compute; reflexivity.
Qed.

(** Witness for C3: the query "al" in the directory of Alice, Alex,
    Alexander and Bob, whose bucket 'a' holds ids 1, 2 and 3. *)
Lemma findUsersByName_spec_witness :
  Account.findUsersByName "al" (directoryOf [alice; alex; alexander; bob])
  = Js.Normal ([alice; alex; alexander], None).
Proof.
  destruct findUsersByName_spec as [H _].
  apply (H (directoryOf [alice; alex; alexander; bob]) "al"%string "a"%string
           [1; 2; 3] [alice; alex; alexander]); vm_compute; reflexivity.
Defined.

(** C3, counterexample. "alice" does not start with "ale",
    so Alice is not among the users returned for "ale". *)
Lemma findUsersByName_ale_without_alice :
  nameMatches "ale" alice = false ∧
  Account.findUsersByName "ale" (directoryOf [alice; alex; alexander; bob])
  ≠ Js.Normal ([alice; alex; alexander], None) ∧
  ∀ found ei,
    Account.findUsersByName "ale" (directoryOf [alice; alex; alexander; bob])
    = Js.Normal (found, ei) → alice ∉ found.
Proof.
  assert (H : Account.findUsersByName "ale" (directoryOf [alice; alex; alexander; bob])
              = Js.Normal ([alex; alexander], None)) by (vm_compute; reflexivity).
  split; [vm_compute; reflexivity|]. rewrite H. split; [discriminate|].
  intros found ei [= <- <-].
  intros Hin. apply elem_of_cons in Hin as [Hin|Hin]; [discriminate Hin|].
  apply elem_of_cons in Hin as [Hin|Hin]; [discriminate Hin|].
  by apply elem_of_nil in Hin.
Qed.

(** C2. [findUsersByName] leaves an exact match where the
    scan met it and reports that position in [exactIndex] (the last one
    when several users match exactly), which is present exactly when an
    exact match is among the returned users; it is [ChatBox.onKeyUp]
    that moves the user at [exactIndex] to index 0 before it builds the
    menu. *)
Theorem exact_match_reported_then_moved (a : Account.t) (nm : string)
    (found : list User.t) (ei : option nat) :
  Account.findUsersByName nm a = Js.Normal (found, ei) →
  ((∃ u, u ∈ found ∧ isExact (Js.toLowerCase nm) u = true) ↔ is_Some ei) ∧
  (∀ i, ei = Some i →
     ∃ u, found !! i = Some u ∧ isExact (Js.toLowerCase nm) u = true ∧
          ChatBox.unshiftSplice i found = Some u :: (Some <$> delete i found)) ∧
  (∀ entries, ChatBox.menuUsers nm a = Js.Normal (Some entries) →
     entries ≡ₚ Some <$> found ∧
     ((∃ u, u ∈ found ∧ isExact (Js.toLowerCase nm) u = true) →
      ∃ u, entries !! 0%nat = Some (Some u) ∧
           isExact (Js.toLowerCase nm) u = true)) ∧
  (ChatBox.menuUsers nm a = Js.Normal None → (length found ≤ 1)%nat) ∧
  (∀ i, ei = Some i →
     ∀ j v, (i < j)%nat → found !! j = Some v →
            isExact (Js.toLowerCase nm) v = false).
Proof.
  intros Hfind. destruct (findUsersByName_exactIndex _ _ _ _ Hfind) as [Hei _].
  assert (Hex : (∃ u, u ∈ found ∧ isExact (Js.toLowerCase nm) u = true) ↔ is_Some ei).
  { split.
    - intros (u & Hin & Hu). destruct ei as [i|]; [by eexists|].
      symmetry in Hei. rewrite (proj1 (lastExact_None _ _) Hei u Hin) in Hu. done.
    - intros [i ->]. symmetry in Hei.
      destruct (lastExact_Some _ _ _ Hei) as (u & Hu & Hx & _).
      exists u. split; [by eapply list_elem_of_lookup_2|done]. }
  assert (Hmove : ∀ i, ei = Some i →
     ∃ u, found !! i = Some u ∧ isExact (Js.toLowerCase nm) u = true ∧
          ChatBox.unshiftSplice i found = Some u :: (Some <$> delete i found)).
  { intros i ->. symmetry in Hei.
    destruct (lastExact_Some _ _ _ Hei) as (u & Hu & Hx & _).
    exists u. split; [done|]. split; [done|].
    unfold ChatBox.unshiftSplice. by rewrite Hu. }
  split; [exact Hex|]. split; [exact Hmove|]. unfold ChatBox.menuUsers.
  rewrite Hfind. split.
  - intros entries.
    destruct (length found =? 1)%nat; [done|].
    destruct (length found =? 0)%nat; [done|].
    destruct ei as [i|].
    + intros [= <-]. destruct (Hmove i eq_refl) as (u & Hu & Hx & ->).
      split.
      * change (Some u :: (Some <$> delete i found))
          with (Some <$> (u :: delete i found)).
        apply fmap_Permutation. symmetry. by apply delete_Permutation.
      * intros _. by exists u.
    + intros [= <-]. split; [done|]. intros H.
      apply Hex in H. by destruct H.
  - split.
    + destruct (length found =? 1)%nat eqn:E1.
      * intros _. apply Nat.eqb_eq in E1. lia.
      * destruct (length found =? 0)%nat eqn:E0.
        -- intros _. apply Nat.eqb_eq in E0. lia.
        -- by destruct ei.
    + intros i ->. symmetry in Hei.
      by destruct (lastExact_Some _ _ _ Hei) as (u & _ & _ & Hlater).
Qed.

(** Witness for C2: Alexander saved before Alex, query "alex". *)
Lemma exact_match_reported_then_moved_witness :
  Account.findUsersByName "alex" (directoryOf [alexander; alex])
  = Js.Normal ([alexander; alex], Some 1%nat) ∧
  ChatBox.menuUsers "alex" (directoryOf [alexander; alex])
  = Js.Normal (Some [Some alex; Some alexander]) ∧
  ∃ u, [Some alex; Some alexander] !! 0%nat = Some (Some u) ∧
       isExact (Js.toLowerCase "alex") u = true.
Proof.
  assert (Hf : Account.findUsersByName "alex" (directoryOf [alexander; alex])
               = Js.Normal ([alexander; alex], Some 1%nat))
    by (vm_compute; reflexivity).
  assert (Hm : ChatBox.menuUsers "alex" (directoryOf [alexander; alex])
               = Js.Normal (Some [Some alex; Some alexander]))
    by (vm_compute; reflexivity).
  split; [exact Hf|]. split; [exact Hm|].
  destruct (exact_match_reported_then_moved _ _ _ _ Hf) as (_ & _ & H & _).
  destruct (H _ Hm) as [_ H'].
  apply H'. exists alex. split; [|vm_compute; reflexivity].
  right. left.
Defined.

(** C2, counterexample. With Alexander saved before Alex,
    [findUsersByName "alex"] hands back Alexander at index 0 and the
    exact match Alex at index 1. *)
Lemma findUsersByName_exact_not_first :
  ∃ found ei,
    Account.findUsersByName "alex" (directoryOf [alexander; alex])
    = Js.Normal (found, ei) ∧
    alex ∈ found ∧ isExact (Js.toLowerCase "alex") alex = true ∧
    found !! 0%nat = Some alexander ∧
    isExact (Js.toLowerCase "alex") alexander = false.
Proof.
  exists [alexander; alex], (Some 1%nat).
  split; [vm_compute; reflexivity|]. split; [right; left|].
  split; [vm_compute; reflexivity|]. split; [reflexivity|].
  vm_compute; reflexivity.
Qed.

End SearchContract.


(** ** Identity record, channel lookup and the aggregates together *)

Section AccountState.

Lemma orNull_idemp (v : option string) : Js.orNull (Js.orNull v) = Js.orNull v.
Proof. by destruct v as [[|c s]|]. Qed.

(** X1. The serialized identity restores the account's identity: a new
    account built from [serialize a] has the id, name, icon and current
    channel that [serialize a] reports, serialising it again gives the
    same record, and serialising a new account gives back its config with
    empty optional fields dropped. *)
Theorem serialize_new_roundtrip (serviceId : string) :
  (∀ a, Account.serialize (Account.new serviceId (Account.serialize a))
        = Account.serialize a) ∧
  (∀ config,
     Account.serialize (Account.new serviceId config) =
     Account.mkConfig (Account.cfg_id config) (Account.cfg_name config)
       (Js.orNull (Account.cfg_icon config))
       (Js.orNull (Account.cfg_currentChannelId config)) ∧
     Account.new serviceId (Account.serialize (Account.new serviceId config))
     = Account.new serviceId config) ∧
  (∀ a, Account.cfg_icon (Account.serialize a) ≠ Some EmptyString ∧
        Account.cfg_currentChannelId (Account.serialize a) ≠ Some EmptyString).
Proof.
  split; [|split].
  - intros a. unfold Account.serialize, Account.new. simpl.
    by rewrite !orNull_idemp.
  - intros config. unfold Account.serialize, Account.new. simpl.
    by rewrite !orNull_idemp.
  - intros a. simpl. split.
    + by destruct (Account.icon a) as [[|c s]|].
    + by destruct (Account.currentChannelId a) as [[|c s]|].
Qed.

Lemma find_app_first {A} (f : A → bool) (l k : list A) :
  List.find f (l ++ k) =
  match List.find f l with Some x => Some x | None => List.find f k end.
Proof. induction l as [|x l IH]; simpl; [done|]. by destruct (f x). Qed.

(** X2. [findChannelById] returns the first entity of [channels]
    followed by [dms] whose id is the queried one, so a channel shadows a
    DM with the same id; the result carries the queried id, and it is
    absent exactly when no channel and no DM has that id. *)
Theorem findChannelById_first_match (a : Account.t) (cid : string) :
  Account.findChannelById cid a =
  List.find (fun c => String.eqb (Channel.id c) cid)
            (Account.channels a ++ Account.dms a) ∧
  (∀ c, Account.findChannelById cid a = Some c →
        c ∈ Account.channels a ++ Account.dms a ∧ Channel.id c = cid) ∧
  (∀ c d, c ∈ Account.channels a → Channel.id c = cid →
          Account.findChannelById cid a = Some d → d ∈ Account.channels a) ∧
  (Account.findChannelById cid a = None ↔
   ∀ c, c ∈ Account.channels a ++ Account.dms a → Channel.id c ≠ cid).
Proof.
  assert (Heq : Account.findChannelById cid a =
                List.find (fun c => String.eqb (Channel.id c) cid)
                          (Account.channels a ++ Account.dms a)).
  { unfold Account.findChannelById. by rewrite find_app_first. }
  split; [exact Heq|]. split; [|split].
  - intros c Hc. rewrite Heq in Hc. apply find_some in Hc as [Hin Hid].
    apply String.eqb_eq in Hid. by rewrite <- list_elem_of_In in Hin.
  - intros c d Hin Hid. unfold Account.findChannelById.
    destruct (find _ (Account.channels a)) as [x|] eqn:E.
    + intros [= <-]. apply find_some in E as [Hx _].
      by rewrite <- list_elem_of_In in Hx.
    + rewrite list_elem_of_In in Hin.
      pose proof (find_none _ _ E c Hin) as Hf. simpl in Hf.
      apply String.eqb_neq in Hf. done.
  - rewrite Heq. split.
    + intros Hnone c Hin Hid. rewrite list_elem_of_In in Hin.
      pose proof (find_none _ _ Hnone c Hin) as Hf. simpl in Hf.
      by apply String.eqb_neq in Hf.
    + intros H. destruct (find _ _) as [c|] eqn:E; [|done].
      apply find_some in E as [Hin Hid]. apply String.eqb_eq in Hid.
      rewrite <- list_elem_of_In in Hin. by destruct (H c Hin).
Qed.

(** Witness for X2: a channel and a DM share the id "X"; the channel is
    found. *)
Lemma findChannelById_first_match_witness :
  let c := Channel.mk "X" true false 0 None in
  let d := Channel.mk "X" false false 2 (Some 7) in
  c ∈ Account.channels (Account.setChannels [c] [d] fresh) ++
      Account.dms (Account.setChannels [c] [d] fresh) ∧
  Channel.id c = "X"%string.
Proof.
  intros c d.
  destruct (findChannelById_first_match (Account.setChannels [c] [d] fresh) "X")
    as (_ & H & _).
  apply H. vm_compute. reflexivity.
Defined.

(** X3. [updateReadState] leaves [isRead] equal to the aggregate over
    [channels] and [dms] (so it is [true] exactly when every entity is
    read or muted), it dispatches exactly when the stored flag was stale,
    and a second call right after changes nothing and dispatches
    nothing. *)
Theorem updateReadState_establishes (a : Account.t) :
  let r1 := Account.updateReadState a in
  let r2 := Account.updateReadState r1.1 in
  Account.isRead r1.1 = Account.computeReadState r1.1 ∧
  Account.computeReadState r1.1 = Account.computeReadState a ∧
  (Account.isRead r1.1 = true ↔
   ∀ c, c ∈ Account.channels a ++ Account.dms a →
        Channel.isRead c = true ∨ Channel.isMuted c = true) ∧
  (r1.2 = [] ↔ Account.isRead a = Account.computeReadState a) ∧
  (r1.2 ≠ [] →
   r1.2 = [OnUpdateReadState (Account.computeReadState a);
           ManagerOnUpdateReadState]) ∧
  r2 = (r1.1, []).
Proof.
  intros r1 r2.
  assert (Hframe : Account.channels r1.1 = Account.channels a ∧
                   Account.dms r1.1 = Account.dms a).
  { unfold r1, Account.updateReadState, Account.setReadState.
    by destruct (negb _). }
  assert (Hagg : Account.computeReadState r1.1 = Account.computeReadState a).
  { destruct Hframe as [Hc Hd]. unfold Account.computeReadState.
    by rewrite Hc, Hd. }
  assert (Hst : Account.isRead r1.1 = Account.computeReadState a).
  { unfold r1, Account.updateReadState, Account.setReadState.
    destruct (Account.isRead a) eqn:Hi, (Account.computeReadState a); done. }
  split; [by rewrite Hagg|]. split; [done|]. split; [|split; [|split]].
  - rewrite Hst, computeReadState_forallb, forallb_forall. split.
    + intros H c Hc. rewrite list_elem_of_In in Hc.
      by apply orb_true_iff, H.
    + intros H c Hc. rewrite <- list_elem_of_In in Hc.
      by apply orb_true_iff, H.
  - unfold r1, Account.updateReadState, Account.setReadState.
    destruct (Account.isRead a), (Account.computeReadState a); simpl;
      split; done.
  - unfold r1, Account.updateReadState, Account.setReadState.
    destruct (Account.isRead a), (Account.computeReadState a); simpl; done.
  - unfold r2, Account.updateReadState. rewrite Hagg, <- Hst.
    unfold Account.setReadState. by rewrite Bool.eqb_reflx.
Qed.

(** Witness for X3: a read channel, a muted unread channel and a read DM,
    on an account whose flag says unread. *)
Lemma updateReadState_establishes_witness :
  let a := Account.setIsRead false
             (Account.setChannels
                [Channel.mk "C1" true false 0 None;
                 Channel.mk "C2" false true 0 None]
                [Channel.mk "D1" true false 0 (Some 7)] fresh) in
  (Account.updateReadState a).2 =
  [OnUpdateReadState (Account.computeReadState a); ManagerOnUpdateReadState].
Proof.
  intros a. destruct (updateReadState_establishes a) as (_ & _ & _ & _ & H & _).
  apply H. vm_compute. discriminate.
Defined.

Lemma updateMentions_frame (a : Account.t) :
  Account.channels (Account.updateMentions a).1 = Account.channels a ∧
  Account.dms (Account.updateMentions a).1 = Account.dms a ∧
  Account.isRead (Account.updateMentions a).1 = Account.isRead a.
Proof. unfold Account.updateMentions. by destruct (negb _). Qed.

Lemma updateReadState_frame (a : Account.t) :
  Account.channels (Account.updateReadState a).1 = Account.channels a ∧
  Account.dms (Account.updateReadState a).1 = Account.dms a ∧
  Account.mentions (Account.updateReadState a).1 = Account.mentions a.
Proof.
  unfold Account.updateReadState, Account.setReadState. by destruct (negb _).
Qed.

Lemma aggregate_updates_swap (a : Account.t) :
  (Account.updateMentions (Account.updateReadState a).1).1
  = (Account.updateReadState (Account.updateMentions a).1).1 ∧
  (Account.updateMentions (Account.updateReadState a).1).2
  = (Account.updateMentions a).2 ∧
  (Account.updateReadState (Account.updateMentions a).1).2
  = (Account.updateReadState a).2.
Proof.
  destruct (updateMentions_frame a) as (Hmc & Hmd & Hmr).
  destruct (updateReadState_frame a) as (Hrc & Hrd & Hrm).
  set (ar := (Account.updateReadState a).1) in *.
  set (am := (Account.updateMentions a).1) in *.
  assert (E1 : Account.updateMentions ar =
    if negb (Account.computeMentions a =? Account.mentions a)
    then (Account.setMentions (Account.computeMentions a) ar,
          [OnUpdateMentions; ManagerUpdateMentions])
    else (ar, [])).
  { unfold Account.updateMentions, Account.computeMentions.
    by rewrite Hrc, Hrd, Hrm. }
  assert (E2 : Account.updateReadState am =
    if negb (Bool.eqb (Account.isRead a) (Account.computeReadState a))
    then (Account.setIsRead (Account.computeReadState a) am,
          [OnUpdateReadState (Account.computeReadState a);
           ManagerOnUpdateReadState])
    else (am, [])).
  { unfold Account.updateReadState, Account.setReadState,
      Account.computeReadState.
    by rewrite Hmc, Hmd, Hmr. }
  rewrite E1, E2.
  unfold ar, am, Account.updateReadState, Account.updateMentions,
    Account.setReadState.
  destruct (negb (Account.computeMentions a =? Account.mentions a));
    destruct (negb (Bool.eqb (Account.isRead a) (Account.computeReadState a)));
    done.
Qed.

(** X4. [updateReadState] and [updateMentions] are independent: run in
    either order they reach the same account, in which [isRead] and
    [mentions] both equal their aggregates, and each dispatches the same
    signals whether it runs first or second; [updateMentions] run twice
    in a row dispatches nothing the second time. *)
Theorem aggregate_updates_commute (a : Account.t) :
  let ar := (Account.updateReadState a).1 in
  let am := (Account.updateMentions a).1 in
  (Account.updateMentions ar).1 = (Account.updateReadState am).1 ∧
  (Account.updateMentions ar).2 = (Account.updateMentions a).2 ∧
  (Account.updateReadState am).2 = (Account.updateReadState a).2 ∧
  Account.isRead (Account.updateMentions ar).1
  = Account.computeReadState (Account.updateMentions ar).1 ∧
  Account.mentions (Account.updateMentions ar).1
  = Account.computeMentions (Account.updateMentions ar).1 ∧
  Account.updateMentions am = (am, []).
Proof.
  intros ar am.
  destruct (updateMentions_frame a) as (Hmc & Hmd & Hmr).
  destruct (updateReadState_frame a) as (Hrc & Hrd & Hrm).
  fold am in Hmc, Hmd, Hmr. fold ar in Hrc, Hrd, Hrm.
  assert (Hcm : Account.computeMentions ar = Account.computeMentions a).
  { unfold Account.computeMentions. by rewrite Hrc, Hrd. }
  assert (Hcr : Account.computeReadState am = Account.computeReadState a).
  { unfold Account.computeReadState. by rewrite Hmc, Hmd. }
  assert (Hcmm : Account.computeMentions am = Account.computeMentions a).
  { unfold Account.computeMentions. by rewrite Hmc, Hmd. }
  assert (Hmm : Account.mentions am = Account.computeMentions a).
  { apply updateMentions_stored. }
  assert (Hidem : Account.updateMentions am = (am, [])).
  { unfold Account.updateMentions at 1. by rewrite Hcmm, Hmm, Z.eqb_refl. }
  destruct (aggregate_updates_swap a) as (H1 & H2 & H3).
  fold ar am in H1, H2, H3.
split; [done|]. split; [done|]. split; [done|].
  destruct (updateMentions_frame ar) as (Hc' & Hd' & Hr').
  split; [|split; [|done]].
  - rewrite Hr'. unfold Account.computeReadState. rewrite Hc', Hd', Hrc, Hrd.
    unfold ar, Account.updateReadState, Account.setReadState.
    fold (Account.computeReadState a).
    destruct (Account.isRead a) eqn:Hi, (Account.computeReadState a); done.
  - rewrite updateMentions_stored. unfold Account.computeMentions.
    by rewrite Hc', Hd'.
Qed.

Lemma forallb_Permutation {A} (f : A → bool) (l k : list A) :
  l ≡ₚ k → forallb f l = forallb f k.
Proof.
  induction 1 as [|x l k _ IH|x y l|l k m _ IH1 _ IH2]; simpl.
  - done.
  - by rewrite IH.
  - by rewrite !andb_assoc, (andb_comm (f y)).
  - by rewrite IH1.
Qed.

Lemma Zsum_Permutation (l k : list Z) : l ≡ₚ k → Zsum l = Zsum k.
Proof.
  induction 1 as [|x l k _ IH|x y l|l k m _ IH1 _ IH2]; simpl; lia.
Qed.

(** X5. The aggregates do not depend on how the entities are ordered or
    split between [channels] and [dms]: rearranging them leaves
    [computeReadState] and the recomputed mention sum unchanged. *)
Theorem aggregates_order_independent (a : Account.t) (cs ds : list Channel.t) :
  cs ++ ds ≡ₚ Account.channels a ++ Account.dms a →
  Account.computeReadState (Account.setChannels cs ds a)
  = Account.computeReadState a ∧
  Account.computeMentions (Account.setChannels cs ds a)
  = Account.computeMentions a.
Proof.
  intros Hp. split.
  - rewrite !computeReadState_forallb. simpl. by apply forallb_Permutation.
  - rewrite !computeMentions_sum. simpl. apply Zsum_Permutation.
    by apply fmap_Permutation.
Qed.

(** Witness for X5: a channel and a DM swap places. *)
Lemma aggregates_order_independent_witness :
  let c := Channel.mk "C1" false false 2 None in
  let d := Channel.mk "D1" true false 3 (Some 7) in
  Account.computeReadState (Account.setChannels [d] [c] (Account.setChannels [c] [d] fresh))
  = Account.computeReadState (Account.setChannels [c] [d] fresh) ∧
  Account.computeMentions (Account.setChannels [d] [c] (Account.setChannels [c] [d] fresh))
  = Account.computeMentions (Account.setChannels [c] [d] fresh).
Proof.
  intros c d.
  apply (aggregates_order_independent (Account.setChannels [c] [d] fresh) [d] [c]).
  simpl. apply Permutation_swap.
Defined.

(** X6. A new account is empty and consistent whatever its config: its
    stored flags equal the aggregates, so [updateReadState] and
    [updateMentions] dispatch nothing, and every lookup (user by id, user
    by name, channel by id, DM by peer) comes back empty. *)
Theorem new_account_consistent (serviceId : string) (config : Account.Config) :
  let a := Account.new serviceId config in
  Account.updateReadState a = (a, []) ∧
  Account.updateMentions a = (a, []) ∧
  (∀ uid, Account.findUserById uid a = None) ∧
  (∀ nm, Account.findUsersByName nm a = Js.Normal ([], None)) ∧
  (∀ cid, Account.findChannelById cid a = None) ∧
  (∀ uid, Account.findChannelByUserId uid a = None).
Proof.
  intros a. split; [done|]. split; [done|]. split; [|split; [|done]].
  - intros uid. unfold Account.findUserById. simpl. apply lookup_empty.
  - intros nm. unfold Account.findUsersByName. simpl. by rewrite lookup_empty.
Qed.

End AccountState.

(** ** More on the user directory *)

Section DirectoryFacts.

Lemma occurrences_removeFirst_other (x y : Z) (l : list Z) :
  y ≠ x → occurrences y (removeFirst x l) = occurrences y l.
Proof.
  intros Hne. unfold occurrences. induction l as [|z l IH]; simpl; [done|].
  destruct (decide (z = x)) as [->|Hz].
  - rewrite (bool_decide_eq_true_2 (x = x)) by done.
    by rewrite (bool_decide_eq_false_2 (x = y)) by congruence.
  - rewrite (bool_decide_eq_false_2 (z = x)) by done. simpl.
    destruct (bool_decide (z = y)); simpl; by rewrite IH.
Qed.

Lemma removeFirst_keeps_other (x y : Z) (l : list Z) :
  y ≠ x → y ∈ l → y ∈ removeFirst x l.
Proof.
  intros Hne. induction l as [|z l IH]; simpl; [done|].
  intros [->|Hin]%elem_of_cons.
  - rewrite bool_decide_eq_false_2 by done. by left.
  - case_bool_decide; [done|]. right. by apply IH.
Qed.

Lemma saveUser_Normal_inv (u r : User.t) (a a' : Account.t) :
  Account.saveUser u a = Js.Normal (r, a') →
  ∃ k ix, firstLetter (User.name u) = Some k ∧
          Account.deleteOldReference u a = Js.Normal ix ∧
          r = u ∧
          a' = Account.setUsers (<[User.id u := u]> (Account.users a))
                 (<[k := default [] (ix !! k) ++ [User.id u]]> ix) a.
Proof.
  unfold Account.saveUser, firstLetter.
  destruct (Js.charAt0 (User.name u)) as [c|]; [|done].
  destruct (Account.deleteOldReference u a) as [ix|]; [|done].
  intros [= <- <-]. exists (Js.toLowerCase c), ix.
  by rewrite pushReference_insert.
Qed.

(** X7. A completed [saveUser u] returns [u], stores it under its id,
    leaves every other stored user as it was (no user is ever dropped) and
    touches nothing of the account besides [users] and [userNamesMap];
    no bucket disappears, and when the record stored under that id
    carries the same id, the index entries of all other ids are left
    alone. *)
Theorem saveUser_touches_only_its_user (u r : User.t) (a a' : Account.t) :
  Account.saveUser u a = Js.Normal (r, a') →
  r = u ∧
  sameOutsideDirectory a a' ∧
  Account.findUserById (User.id u) a' = Some u ∧
  (∀ uid, uid ≠ User.id u →
          Account.findUserById uid a' = Account.findUserById uid a) ∧
  (∀ k, is_Some (Account.userNamesMap a !! k) →
        is_Some (Account.userNamesMap a' !! k)) ∧
  ((∀ old, Account.users a !! User.id u = Some old → User.id old = User.id u) →
   ∀ k uid, uid ≠ User.id u →
     occurrences uid (default [] (Account.userNamesMap a' !! k))
     = occurrences uid (default [] (Account.userNamesMap a !! k))).
Proof.
  intros Hsave.
  destruct (saveUser_Normal_inv _ _ _ _ Hsave) as (kN & ix & HkN & Hd & -> & ->).
  split; [done|]. split; [by repeat split|]. unfold Account.findUserById. simpl.
  split; [apply lookup_insert_eq|]. split; [|split].
  - intros uid Hne. by rewrite lookup_insert_ne.
  - intros k Hk. destruct (decide (kN = k)) as [<-|?].
    + by rewrite lookup_insert_eq.
    + rewrite lookup_insert_ne by done.
      destruct (deleteOldReference_result _ _ _ Hd)
        as [->|(old & kOld & b & _ & _ & ->)]; [done|].
      destruct (decide (kOld = k)) as [<-|?].
      * by rewrite lookup_insert_eq.
      * by rewrite lookup_insert_ne.
  - intros Hid k uid Hne.
    assert (Hix : occurrences uid (default [] (ix !! k))
                  = occurrences uid (default [] (Account.userNamesMap a !! k))).
    { destruct (deleteOldReference_result _ _ _ Hd)
        as [->|(old & kOld & b & Hold & Hb & ->)]; [done|].
      destruct (decide (kOld = k)) as [<-|?].
      - rewrite lookup_insert_eq, Hb. simpl.
        apply occurrences_removeFirst_other. by rewrite (Hid _ Hold).
      - by rewrite lookup_insert_ne. }
    destruct (decide (kN = k)) as [<-|?].
    + rewrite lookup_insert_eq. simpl. rewrite occurrences_app, Hix.
      unfold occurrences at 2. simpl.
      rewrite bool_decide_eq_false_2 by congruence. simpl. lia.
    + by rewrite lookup_insert_ne.
Qed.

(** Witness for X7: Carol is saved into the directory of Alice and
    Bob. *)
Lemma saveUser_touches_only_its_user_witness :
  ∃ a', Account.saveUser (User.mk 9 "Carol") (directoryOf [alice; bob])
        = Js.Normal (User.mk 9 "Carol", a') ∧
        Account.findUserById 9 a' = Some (User.mk 9 "Carol") ∧
        Account.findUserById 1 a' = Account.findUserById 1 (directoryOf [alice; bob]).
Proof.
  destruct (Account.saveUser (User.mk 9 "Carol") (directoryOf [alice; bob]))
    as [[r a']|e] eqn:E; [|vm_compute in E; discriminate E].
  destruct (saveUser_touches_only_its_user _ _ _ _ E) as (-> & _ & Hu & Ho & _).
  exists a'. split; [done|]. split; [exact Hu|]. by apply Ho.
Defined.

(** X8. [saveUser] throws (a TypeError) in exactly two situations: the
    new name is empty, or the user is stored under a different name
    that is itself empty or whose first-letter bucket does not exist. *)
Theorem saveUser_throws_iff (u : User.t) (a : Account.t) (e : Js.Error) :
  Account.saveUser u a = Js.Throw e ↔
  e = Js.TypeError ∧
  (User.name u = EmptyString ∨
   ∃ old, Account.users a !! User.id u = Some old ∧
          User.name old ≠ User.name u ∧
          (User.name old = EmptyString ∨
           ∃ k, firstLetter (User.name old) = Some k ∧
                Account.userNamesMap a !! k = None)).
Proof.
  unfold Account.saveUser, Account.deleteOldReference, firstLetter.
  destruct (User.name u) as [|c nm] eqn:Hu; simpl.
  { split; [intros [= <-]; split; [done|by left]|by intros [-> _]]. }
  destruct (Account.users a !! User.id u) as [old|]; simpl.
  2:{ split; [done|]. intros [_ [?|(old & ? & _)]]; done. }
  destruct (String.eqb_spec (User.name old) (String c nm)) as [Heq|Hne]; simpl.
  { split; [done|]. intros [_ [?|(old' & [= <-] & Hn & _)]]; done. }
  destruct (User.name old) as [|oc onm] eqn:Ho; simpl.
  { split.
    - intros [= <-]. split; [done|]. right. exists old.
      split; [done|]. split; [by rewrite Ho|]. left. done.
    - by intros [-> _]. }
  destruct (Account.userNamesMap a !! _) as [b|] eqn:Hb; simpl.
  - split; [by destruct (_ >? _)|].
    intros [_ [?|(old' & [= <-] & _ & [Hemp|(k & Hk & Hnone)])]]; try done.
    + by rewrite Ho in Hemp.
    + rewrite Ho in Hk. simpl in Hk. injection Hk as <-.
      simpl in Hnone. by rewrite Hb in Hnone.
  - split.
    + intros [= <-]. split; [done|]. right. exists old.
      split; [done|]. split; [by rewrite Ho|]. right.
      eexists. rewrite Ho. simpl. split; [done|]. exact Hb.
    + by intros [-> _].
Qed.

(** Witness for X8: an empty name. *)
Lemma saveUser_throws_iff_witness :
  Js.TypeError = Js.TypeError ∧
  (User.name (User.mk 1 "") = EmptyString ∨
   ∃ old, Account.users fresh !! User.id (User.mk 1 "") = Some old ∧
          User.name old ≠ User.name (User.mk 1 "") ∧
          (User.name old = EmptyString ∨
           ∃ k, firstLetter (User.name old) = Some k ∧
                Account.userNamesMap fresh !! k = None)).
Proof.
  apply (saveUser_throws_iff (User.mk 1 "") fresh Js.TypeError).
  vm_compute. reflexivity.
Defined.

Lemma saveUser_indexComplete (u r : User.t) (a a' : Account.t) :
  indexComplete a → Account.saveUser u a = Js.Normal (r, a') → indexComplete a'.
Proof.
  intros Hinv Hsave.
  destruct (saveUser_Normal_inv _ _ _ _ Hsave) as (kN & ix & HkN & Hd & -> & ->).
  assert (Hix : ∀ uid k b, uid ≠ User.id u →
            Account.userNamesMap a !! k = Some b → uid ∈ b →
            ∃ b', ix !! k = Some b' ∧ uid ∈ b').
  { intros uid k b Hne Hb Hin.
    destruct (deleteOldReference_result _ _ _ Hd)
      as [->|(old & kOld & b0 & Hold & Hb0 & ->)]; [by exists b|].
    destruct (decide (kOld = k)) as [<-|?].
    - rewrite lookup_insert_eq. eexists. split; [done|].
      rewrite Hb in Hb0. injection Hb0 as <-.
      apply removeFirst_keeps_other; [|done].
      by rewrite (proj1 (Hinv _ _ Hold)).
    - rewrite lookup_insert_ne by done. by exists b. }
  intros uid v. simpl. destruct (decide (User.id u = uid)) as [<-|Hne].
  - rewrite lookup_insert_eq. intros [= <-]. split; [done|].
    exists kN. eexists. split; [done|]. split; [apply lookup_insert_eq|].
    apply elem_of_app. right. by left.
  - rewrite lookup_insert_ne by done. intros Hv.
    destruct (Hinv _ _ Hv) as (Hid & k & b & Hk & Hb & Hin).
    split; [done|]. exists k.
    destruct (Hix uid k b) as (b' & Hb' & Hin'); [congruence|done|done|].
    destruct (decide (kN = k)) as [<-|?].
    + eexists. split; [done|]. split; [apply lookup_insert_eq|].
      rewrite Hb'. simpl. apply elem_of_app. by left.
    + exists b'. split; [done|]. split; [by rewrite lookup_insert_ne|done].
Qed.

Lemma saveUsers_indexComplete (us : list User.t) :
  ∀ a a', indexComplete a → Account.saveUsers us a = Js.Normal a' →
          indexComplete a'.
Proof.
  induction us as [|u us IH]; intros a a' Hinv; simpl.
  - by intros [= <-].
  - destruct (Account.saveUser u a) as [[r a1]|] eqn:E; [|done].
    apply IH. by eapply saveUser_indexComplete.
Qed.

(** X9. On every account built by [saveUser] calls, re-saves included,
    each stored user carries the id it is stored under and has that id
    listed in the bucket of the first letter of its current name; every
    id listed in a bucket is a stored user, and every bucket key is the
    lowercase of the first character of some name, so that no bucket is
    keyed "undefined". *)
Theorem built_directory_invariants (a : Account.t) :
  builtBySaveUser a →
  indexComplete a ∧ directoryClosed a ∧ firstLetterKeys a ∧
  Account.userNamesMap a !! "undefined"%string = None.
Proof.
  intros (serviceId & config & us & Hsave).
  assert (Hkeys : firstLetterKeys a).
  { eapply saveUsers_firstLetterKeys; [apply new_firstLetterKeys|exact Hsave]. }
  split; [|split; [|split]].
  - eapply saveUsers_indexComplete; [|exact Hsave].
    intros uid u H. simpl in H. by rewrite lookup_empty in H.
  - eapply saveUsers_directoryClosed; [apply new_directoryClosed|exact Hsave].
  - exact Hkeys.
  - by apply firstLetterKeys_undefined.
Qed.

(** Witness for X9: Bob saved twice and then renamed Robert; id 1 is
    listed in bucket 'r'. *)
Lemma built_directory_invariants_witness :
  ∃ k bucket,
    firstLetter "Robert" = Some k ∧
    Account.userNamesMap
      (directoryOf [User.mk 1 "Bob"; User.mk 1 "Bob"; User.mk 1 "Robert"]) !! k
    = Some bucket ∧ 1 ∈ bucket.
Proof.
  destruct (built_directory_invariants
              (directoryOf [User.mk 1 "Bob"; User.mk 1 "Bob"; User.mk 1 "Robert"]))
    as (Hc & _).
  { exists "slack"%string, (Account.mkConfig "T1" "Team" None None),
      [User.mk 1 "Bob"; User.mk 1 "Bob"; User.mk 1 "Robert"].
    vm_compute. reflexivity. }
  destruct (Hc 1 (User.mk 1 "Robert")) as (_ & k & b & Hk & Hb & Hin).
  { vm_compute. reflexivity. }
  by exists k, b.
Defined.

(** *** What a search returns *)

Lemma scanBucket_sound (a : Account.t) (q : string) (ids : list Z) :
  ∀ found ei found' ei',
    Account.scanBucket a q ids found ei = Js.Normal (found', ei') →
    ∀ u, u ∈ found' →
         u ∈ found ∨
         (nameMatches q u = true ∧
          ∃ uid, uid ∈ ids ∧ Account.users a !! uid = Some u).
Proof.
  induction ids as [|uid ids IH]; intros found ei found' ei'; simpl.
  - intros [= <- <-] u Hu. by left.
  - destruct (Account.users a !! uid) as [v|] eqn:Hv; [|done].
    rewrite scan_condition. destruct (nameMatches q v) eqn:Hm.
    + assert (Hsnoc : ∀ u, u ∈ found ++ [v] →
                u ∈ found ∨ (nameMatches q u = true ∧
                  ∃ uid', uid' ∈ uid :: ids ∧ Account.users a !! uid' = Some u)).
      { intros u [Hin|Hin]%elem_of_app; [by left|].
        apply list_elem_of_singleton in Hin as ->. right. split; [done|].
        exists uid. split; [by left|done]. }
      destruct (length (found ++ [v]) =? MENTION_SEARCH_LIMIT)%nat.
      * intros [= <- <-]. exact Hsnoc.
      * intros Hscan u Hu.
        destruct (IH _ _ _ _ Hscan u Hu) as [Hin|(Hmu & uid' & Hin & Hlk)].
        -- by apply Hsnoc.
        -- right. split; [done|]. exists uid'. split; [by right|done].
    + intros Hscan u Hu.
      destruct (IH _ _ _ _ Hscan u Hu) as [Hin|(Hmu & uid' & Hin & Hlk)].
      * by left.
      * right. split; [done|]. exists uid'. split; [by right|done].
Qed.

Lemma findUsersByName_found_stored (a : Account.t) (nm : string)
    (found : list User.t) (ei : option nat) :
  Account.findUsersByName nm a = Js.Normal (found, ei) →
  ∀ u, u ∈ found →
    nameMatches (Js.toLowerCase nm) u = true ∧
    ∃ bucket uid,
      Account.userNamesMap a !! Js.propertyKey (Js.charAt0 (Js.toLowerCase nm))
      = Some bucket ∧
      uid ∈ bucket ∧ Account.users a !! uid = Some u.
Proof.
  intros Hfind. unfold Account.findUsersByName in Hfind.
  destruct (Account.userNamesMap a !! _) as [bucket|] eqn:Hb.
  - intros u Hu.
    destruct (scanBucket_sound _ _ _ _ _ _ _ Hfind u Hu)
      as [Hin|(Hm & uid & Hin & Hlk)]; [by apply elem_of_nil in Hin|].
    split; [done|]. by exists bucket, uid.
  - injection Hfind as <- <-. intros u Hu. by apply elem_of_nil in Hu.
Qed.

(** X10. Whatever the account, a completed [findUsersByName] returns at
    most 5 users, each of them a stored user listed in the bucket that
    was searched and whose lowercased name equals or starts with the
    lowercased query. *)
Theorem findUsersByName_sound (a : Account.t) (nm : string)
    (found : list User.t) (ei : option nat) :
  Account.findUsersByName nm a = Js.Normal (found, ei) →
  (length found ≤ MENTION_SEARCH_LIMIT)%nat ∧
  ∀ u, u ∈ found →
    nameMatches (Js.toLowerCase nm) u = true ∧
    ∃ bucket uid,
      Account.userNamesMap a !! Js.propertyKey (Js.charAt0 (Js.toLowerCase nm))
      = Some bucket ∧
      uid ∈ bucket ∧ Account.users a !! uid = Some u.
Proof.
  intros Hfind. split.
  - by destruct (findUsersByName_exactIndex _ _ _ _ Hfind).
  - by apply findUsersByName_found_stored with ei.
Qed.

(** Witness for X10: the query "al" on Alice, Alex, Alexander and Bob. *)
Lemma findUsersByName_sound_witness :
  (length [alice; alex; alexander] ≤ MENTION_SEARCH_LIMIT)%nat ∧
  nameMatches (Js.toLowerCase "al") alex = true.
Proof.
  destruct (findUsersByName_sound (directoryOf [alice; alex; alexander; bob])
              "al" [alice; alex; alexander] None) as [Hlen Hall].
  { vm_compute. reflexivity. }
  split; [exact Hlen|]. apply Hall. right. left.
Defined.

Lemma nameMatches_prefix (q : string) (u : User.t) :
  nameMatches q u = true → String.prefix q (Js.toLowerCase (User.name u)) = true.
Proof.
  unfold nameMatches, isExact. intros [Heq|Hp]%orb_true_iff; [|done].
  apply String.eqb_eq in Heq. rewrite Heq.
  clear. induction q as [|c q IH]; [done|].
  change (String.prefix (String c q) (String c q))
    with (if ascii_dec c c then String.prefix q q else false).
  by destruct (ascii_dec c c).
Qed.

Lemma prefix_charAt0 (p s : string) :
  p ≠ EmptyString → String.prefix p s = true → Js.charAt0 s = Js.charAt0 p.
Proof.
  destruct p as [|c p]; [done|]. intros _. destruct s as [|d s]; [done|].
  change (String.prefix (String c p) (String d s))
    with (if ascii_dec c d then String.prefix p s else false).
  destruct (ascii_dec c d) as [->|]; done.
Qed.

(** Lowercasing keeps a non-empty string non-empty. *)
Lemma toLowerCase_nonempty (nm : string) :
  nm ≠ EmptyString → Js.toLowerCase nm ≠ EmptyString.
Proof.
  destruct nm as [|c nm]; [done|]. intros _. simpl.
  by destruct (Js.toLowerCase nm); destruct c as [[|] [|] [|] [|] [|] [|] [|] [|]].
Qed.

(** X11. On an account built by [saveUser] calls, a stored user whose
    lowercased name equals or starts with the lowercased, non-empty query
    is among the users returned, unless the search stopped at the limit of
    5, provided the key [saveUser] files the name under is the key a
    search for it reads: the lowercase of the name's first character is
    the first character of the lowercased name. *)
Theorem findUsersByName_complete (a : Account.t) (nm : string)
    (found : list User.t) (ei : option nat) (uid : Z) (u : User.t) :
  builtBySaveUser a →
  Account.findUsersByName nm a = Js.Normal (found, ei) →
  nm ≠ EmptyString →
  Account.users a !! uid = Some u →
  nameMatches (Js.toLowerCase nm) u = true →
  firstLetter (User.name u) = Js.charAt0 (Js.toLowerCase (User.name u)) →
  (length found < MENTION_SEARCH_LIMIT)%nat →
  u ∈ found.
Proof.
  intros Hbuilt Hfind Hnm Hu Hm Hfiled Hlen.
  destruct Hbuilt as (serviceId & config & saved & Hsave).
  assert (Hcomp : indexComplete a).
  { eapply saveUsers_indexComplete; [|exact Hsave].
    intros i v H. simpl in H. by rewrite lookup_empty in H. }
  assert (Hclosed : ∀ k bucket i, Account.userNamesMap a !! k = Some bucket →
                      i ∈ bucket → is_Some (Account.users a !! i)).
  { eapply proj2, saveUsers_directoryClosed;
      [apply new_directoryClosed|exact Hsave]. }
  destruct (Hcomp _ _ Hu) as (_ & k & bucket & Hk & Hb & Hin).
  assert (Hkey : Js.charAt0 (Js.toLowerCase nm) = Some k).
  { rewrite <- Hk, Hfiled. symmetry.
    apply prefix_charAt0; [by apply toLowerCase_nonempty|by apply nameMatches_prefix]. }
  destruct (mapM_is_Some_2 (fun i => Account.users a !! i) bucket) as [us Hus].
  { apply Forall_forall. intros i Hi. exact (Hclosed k bucket i Hb Hi). }
  pose proof (findUsersByName_bucket a nm k bucket us Hkey Hb Hus) as Hspec.
  simpl in Hspec. rewrite Hfind in Hspec. injection Hspec as Hfound _.
  assert (Hus_in : u ∈ us).
  { apply mapM_Some in Hus. apply list_elem_of_lookup_1 in Hin as [i Hi].
    destruct (Forall2_lookup_l _ _ _ _ _ Hus Hi) as (v & Hv & Hlk).
    rewrite Hu in Hlk. injection Hlk as <-. by eapply list_elem_of_lookup_2. }
  assert (Hfilter : u ∈ List.filter (nameMatches (Js.toLowerCase nm)) us).
  { apply list_elem_of_In, filter_In. by rewrite <- list_elem_of_In. }
  rewrite Hfound. rewrite take_ge; [done|].
  destruct (decide (length (List.filter (nameMatches (Js.toLowerCase nm)) us)
                    ≤ MENTION_SEARCH_LIMIT)%nat) as [|Hgt]; [done|].
  rewrite Hfound, length_take in Hlen. lia.
Qed.

(** Witness for X11: Alexander is found by "alex" among Alice, Alex,
    Alexander and Bob. *)
Lemma findUsersByName_complete_witness : alexander ∈ [alex; alexander].
Proof.
  apply (findUsersByName_complete (directoryOf [alice; alex; alexander; bob])
           "alex" [alex; alexander] (Some 0%nat) 3 alexander).
  - exists "slack"%string, (Account.mkConfig "T1" "Team" None None),
      [alice; alex; alexander; bob]. vm_compute. reflexivity.
  - vm_compute. reflexivity.
  - discriminate.
  - vm_compute. reflexivity.
  - vm_compute. reflexivity.
  - vm_compute. reflexivity.
  - vm_compute. lia.
Defined.

Lemma scanBucket_throws (a : Account.t) (q : string) (ids : list Z) :
  ∀ found ei e,
    Account.scanBucket a q ids found ei = Js.Throw e →
    e = Js.TypeError ∧ ∃ uid, uid ∈ ids ∧ Account.users a !! uid = None.
Proof.
  induction ids as [|uid ids IH]; intros found ei e; simpl; [done|].
  destruct (Account.users a !! uid) as [v|] eqn:Hv.
  - assert (Hrest : ∀ f i, Account.scanBucket a q ids f i = Js.Throw e →
              e = Js.TypeError ∧
              ∃ uid', uid' ∈ uid :: ids ∧ Account.users a !! uid' = None).
    { intros f i Hs. destruct (IH _ _ _ Hs) as (-> & uid' & Hin & Hn).
      split; [done|]. exists uid'. split; [by right|done]. }
    destruct (_ || _); [|apply Hrest].
    destruct (_ =? _)%nat; [done|apply Hrest].
  - intros [= <-]. split; [done|]. exists uid. split; [by left|done].
Qed.

(** X12. [findUsersByName] throws only a TypeError, and only when the
    bucket it scans lists an id with no stored user; in particular it
    never throws for the empty query's missing bucket, nor on an account
    whose buckets list stored users only. *)
Theorem findUsersByName_throws_only_on_dangling_id (a : Account.t) (nm : string) :
  (∀ e, Account.findUsersByName nm a = Js.Throw e →
        e = Js.TypeError ∧
        ∃ bucket uid,
          Account.userNamesMap a !! Js.propertyKey (Js.charAt0 (Js.toLowerCase nm))
          = Some bucket ∧
          uid ∈ bucket ∧ Account.users a !! uid = None) ∧
  (directoryClosed a → ∀ e, Account.findUsersByName nm a ≠ Js.Throw e).
Proof.
  assert (H : ∀ e, Account.findUsersByName nm a = Js.Throw e →
        e = Js.TypeError ∧
        ∃ bucket uid,
          Account.userNamesMap a !! Js.propertyKey (Js.charAt0 (Js.toLowerCase nm))
          = Some bucket ∧
          uid ∈ bucket ∧ Account.users a !! uid = None).
  { intros e. unfold Account.findUsersByName.
    destruct (Account.userNamesMap a !! _) as [bucket|] eqn:Hb; [|done].
    intros Hs. destruct (scanBucket_throws _ _ _ _ _ _ Hs) as (-> & uid & Hin & Hn).
    split; [done|]. by exists bucket, uid. }
  split; [exact H|]. intros [_ Hcl] e He.
  destruct (H e He) as (_ & bucket & uid & Hb & Hin & Hn).
  destruct (Hcl _ _ _ Hb Hin) as [v Hv]. by rewrite Hn in Hv.
Qed.

(** Witness for X12: an index that lists id 5 while no user is stored. *)
Lemma findUsersByName_throws_only_on_dangling_id_witness :
  let a := Account.setUsers ∅ {[ "a"%string := [5] ]} fresh in
  Js.TypeError = Js.TypeError ∧
  ∃ bucket uid,
    Account.userNamesMap a !! Js.propertyKey (Js.charAt0 (Js.toLowerCase "al"))
    = Some bucket ∧
    uid ∈ bucket ∧ Account.users a !! uid = None.
Proof.
  intros a.
  destruct (findUsersByName_throws_only_on_dangling_id a "al") as [H _].
  apply H. vm_compute. reflexivity.
Defined.

(** *** The mention menu of [onKeyUp] *)

(** X13. When [onKeyUp] builds a menu, it has between 2 and 5 entries,
    none of them [undefined]: each entry is a stored user whose lowercased
    name equals or starts with the lowercased query, and the entries are
    the users returned by the search, each exactly as often.  No menu is
    built exactly when the search returned at most one user, and the
    handler throws exactly when the search does. *)
Theorem menuUsers_entries (a : Account.t) (nm : string) :
  (∀ entries, ChatBox.menuUsers nm a = Js.Normal (Some entries) →
     (2 ≤ length entries ≤ MENTION_SEARCH_LIMIT)%nat ∧
     (∀ e, e ∈ entries →
        ∃ u, e = Some u ∧ nameMatches (Js.toLowerCase nm) u = true ∧
             ∃ uid, Account.users a !! uid = Some u) ∧
     ∃ found ei, Account.findUsersByName nm a = Js.Normal (found, ei) ∧
                 entries ≡ₚ Some <$> found) ∧
  (ChatBox.menuUsers nm a = Js.Normal None ↔
   ∃ found ei, Account.findUsersByName nm a = Js.Normal (found, ei) ∧
               (length found ≤ 1)%nat) ∧
  (∀ e, ChatBox.menuUsers nm a = Js.Throw e ↔
        Account.findUsersByName nm a = Js.Throw e).
Proof.
  unfold ChatBox.menuUsers.
  destruct (Account.findUsersByName nm a) as [[found ei]|err] eqn:Hfind.
  2:{ split; [intros entries H; discriminate H|]. split; [|intros e; split; intros [= <-]; done].
      split; [intros H; discriminate H|]. intros (? & ? & H & _). discriminate H. }
  destruct (findUsersByName_exactIndex _ _ _ _ Hfind) as [Hei Hlen].
  pose proof (findUsersByName_found_stored _ _ _ _ Hfind) as Hstored.
  split; [|split].
  - intros entries Hmenu.
    destruct (length found =? 1)%nat eqn:E1; [done|].
    destruct (length found =? 0)%nat eqn:E0; [done|].
    apply Nat.eqb_neq in E1, E0.
    assert (Hperm : entries ≡ₚ Some <$> found).
    { destruct ei as [i|]; injection Hmenu as <-; [|done].
      symmetry in Hei. destruct (lastExact_Some _ _ _ Hei) as (u & Hu & _).
      unfold ChatBox.unshiftSplice. rewrite Hu.
      change (Some u :: (Some <$> delete i found))
        with (Some <$> (u :: delete i found)).
      apply fmap_Permutation. symmetry. by apply delete_Permutation. }
    split; [|split].
    + rewrite Hperm, length_fmap. lia.
    + intros e He. rewrite Hperm in He.
      apply list_elem_of_fmap in He as (u & -> & Hu).
      exists u. split; [done|]. destruct (Hstored u Hu) as (Hm & _ & uid & _ & _ & Hlk).
      split; [done|]. by exists uid.
    + by exists found, ei.
  - split.
    + intros Hnone. exists found, ei. split; [done|].
      destruct (length found =? 1)%nat eqn:E1; [apply Nat.eqb_eq in E1; lia|].
      destruct (length found =? 0)%nat eqn:E0; [apply Nat.eqb_eq in E0; lia|].
      by destruct ei.
    + intros (f & i & [= <- <-] & Hl).
      destruct (length found =? 1)%nat eqn:E1; [done|].
      destruct (length found =? 0)%nat eqn:E0; [done|].
      apply Nat.eqb_neq in E1, E0. lia.
  - intros e. split; [|done].
    destruct (length found =? 1)%nat; [done|].
    destruct (length found =? 0)%nat; [done|]. by destruct ei.
Qed.

(** Witness for X13: the menu for "alex" with Alexander saved before
    Alex. *)
Lemma menuUsers_entries_witness :
  (2 ≤ length [Some alex; Some alexander] ≤ MENTION_SEARCH_LIMIT)%nat.
Proof.
  destruct (menuUsers_entries (directoryOf [alexander; alex]) "alex") as [H _].
  apply (H [Some alex; Some alexander]). vm_compute. reflexivity.
Defined.

(** *** Sequences of saves *)

(** X19. After a sequence of [saveUser] calls that all complete, looking
    a user up by id gives the record of the last call for that id, and
    what was stored before when no call concerned that id. *)
Theorem saveUsers_last_write_wins (us : list User.t) :
  ∀ a a' uid,
    Account.saveUsers us a = Js.Normal a' →
    Account.findUserById uid a' =
    match List.find (fun u => bool_decide (User.id u = uid)) (rev us) with
    | Some u => Some u
    | None => Account.findUserById uid a
    end.
Proof.
  induction us as [|u us IH]; intros a a' uid; simpl.
  - by intros [= <-].
  - destruct (Account.saveUser u a) as [[r a1]|] eqn:E; [|done].
    intros Hrest. rewrite (IH _ _ uid Hrest), find_app_first.
    destruct (find _ (rev us)); [done|]. simpl.
    destruct (saveUser_Normal_inv _ _ _ _ E) as (k & ix & _ & _ & _ & ->).
    unfold Account.findUserById. simpl. case_bool_decide as Hid.
    + subst uid. apply lookup_insert_eq.
    + by rewrite lookup_insert_ne.
Qed.

(** Witness for X19: Bob saved, then Alice, then Bob renamed Robert. *)
Lemma saveUsers_last_write_wins_witness :
  Account.findUserById 4
    (directoryOf [bob; alice; User.mk 4 "Robert"]) = Some (User.mk 4 "Robert").
Proof.
  rewrite (saveUsers_last_write_wins [bob; alice; User.mk 4 "Robert"] fresh
             (directoryOf [bob; alice; User.mk 4 "Robert"]) 4).
  - reflexivity.
  - vm_compute. reflexivity.
Defined.

End DirectoryFacts.

(** ** The chat box handlers *)

Section ChatBoxFacts.

(** *** Buffering of messages until the page is ready *)

Lemma otherThread_pending (s : ChatBox.t) (ps : list Message.t) (m : Message.t) :
  ChatBox.otherThread
    (ChatBox.mk (ChatBox.messageList s) (ChatBox.subscription s)
       (ChatBox.messagesLoaded s) (ChatBox.isSendingReply s)
       (ChatBox.isDisplaying s) ps (ChatBox.threadId s)) m
  = ChatBox.otherThread s m.
Proof. done. Qed.

Lemma run_newMessage_unloaded (ms : list Message.t) :
  ∀ s, ChatBox.messagesLoaded s = false →
    ChatBox.run (ChatBox.CNewMessage <$> ms) s =
    (ChatBox.mk (ChatBox.messageList s) (ChatBox.subscription s) false
       (ChatBox.isSendingReply s) (ChatBox.isDisplaying s)
       (ChatBox.pendingMessages s ++ List.filter (accepted s) ms)
       (ChatBox.threadId s),
     [], Js.Normal tt).
Proof.
  induction ms as [|m ms IH]; intros s Hl; csimpl.
  - rewrite app_nil_r. destruct s. simpl in Hl. by subst.
  - unfold ChatBox.newMessage, accepted at 1.
    destruct (ChatBox.otherThread s m) eqn:Ho; simpl.
    + by rewrite IH.
    + rewrite Hl. simpl. rewrite IH by done. simpl.
      rewrite <- app_assoc. reflexivity.
Qed.

Lemma flushPending_loaded (ml : MessageList.t) (ms : list Message.t) (s : ChatBox.t) :
  ChatBox.messagesLoaded s = true → ChatBox.messageList s = Some ml →
  ChatBox.flushPending ms s =
  (s, shown ml <$> List.filter (accepted s) ms, Js.Normal tt).
Proof.
  intros Hl Hml. induction ms as [|m ms IH]; csimpl; [done|].
  unfold ChatBox.newMessage, accepted at 1.
  destruct (ChatBox.otherThread s m); simpl.
  - by rewrite IH.
  - rewrite Hl, Hml. simpl. by rewrite IH.
Qed.

Lemma filter_app_filter {A} (f : A → bool) (l k : list A) :
  List.filter f (l ++ List.filter f k) = List.filter f (l ++ k).
Proof.
  rewrite !List.filter_app. f_equal.
  induction k as [|x k IH]; simpl; [done|].
  destruct (f x) eqn:Hx; simpl; [|done]. by rewrite Hx, IH.
Qed.

Lemma ready_with_list (ml : MessageList.t) (s : ChatBox.t) (active : bool) :
  ChatBox.messageList s = Some ml →
  ChatBox.ready active s =
  (ChatBox.mk (Some ml) (ChatBox.subscription s) true (ChatBox.isSendingReply s)
     (if active then true else ChatBox.isDisplaying s) []
     (ChatBox.threadId s),
   [ChatBox.EntrySetEnabled true; ChatBox.EntryFocus] ++
   (shown ml <$> List.filter (accepted s) (ChatBox.pendingMessages s)) ++
   (if active then [ChatBox.Select ml] else []) ++ [ChatBox.NotifyRead ml],
   Js.Normal tt).
Proof.
  intros Hml. unfold ChatBox.ready.
  rewrite (flushPending_loaded ml) by done.
  destruct active; simpl; rewrite Hml; reflexivity.
Qed.

(** X14. Messages that arrive before the page is ready are buffered, not
    shown; [ready] then shows the buffered messages of the box's thread in
    arrival order, exactly once each, empties the buffer, selects the list
    when the window is active and marks it read. *)
Theorem pending_messages_shown_in_order (s : ChatBox.t) (ml : MessageList.t)
    (ms : list Message.t) (active : bool) :
  ChatBox.messageList s = Some ml →
  ChatBox.messagesLoaded s = false →
  ∃ s1,
    ChatBox.run (ChatBox.CNewMessage <$> ms) s = (s1, [], Js.Normal tt) ∧
    ChatBox.pendingMessages s1
    = ChatBox.pendingMessages s ++ List.filter (accepted s) ms ∧
    ChatBox.ready active s1 =
    (ChatBox.mk (Some ml) (ChatBox.subscription s) true (ChatBox.isSendingReply s)
       (if active then true else ChatBox.isDisplaying s) []
       (ChatBox.threadId s),
     [ChatBox.EntrySetEnabled true; ChatBox.EntryFocus] ++
     (shown ml <$> List.filter (accepted s) (ChatBox.pendingMessages s ++ ms)) ++
     (if active then [ChatBox.Select ml] else []) ++ [ChatBox.NotifyRead ml],
     Js.Normal tt).
Proof.
  intros Hml Hl. eexists. split; [by apply run_newMessage_unloaded|].
  split; [done|]. rewrite (ready_with_list ml) by done. simpl.
  rewrite <- (filter_app_filter (accepted s) (ChatBox.pendingMessages s) ms).
  reflexivity.
Qed.

(** Witness for X14: two messages reach an unloaded box that follows no
    thread; the window is active when the page gets ready. *)
Lemma pending_messages_shown_in_order_witness :
  let ml := MessageList.mk "C1" (Some "2.0") fresh in
  let s := ChatBox.mk (Some ml) true false false false [] None in
  let m1 := Message.mk "1.0" None 4 in
  let m2 := Message.mk "2.0" None 5 in
  ∃ s1, ChatBox.run [ChatBox.CNewMessage m1; ChatBox.CNewMessage m2] s
        = (s1, [], Js.Normal tt) ∧
        (ChatBox.ready true s1).1.2 =
        [ChatBox.EntrySetEnabled true; ChatBox.EntryFocus;
         ChatBox.AddMessage m1 false false; ChatBox.AddMessage m2 true false;
         ChatBox.Select ml; ChatBox.NotifyRead ml].
Proof.
  intros ml s m1 m2.
  destruct (pending_messages_shown_in_order s ml [m1; m2] true)
    as (s1 & Hrun & _ & Hready); [reflexivity|reflexivity|].
  exists s1. split; [exact Hrun|]. rewrite Hready. vm_compute. reflexivity.
Defined.

(** *** [unload] *)

(** X15. [unload] always completes; afterwards the box has no message
    list and no subscription, and if it had a list it is no longer
    loaded, no longer displaying and holds no buffered message.  The list
    is deselected exactly when the box was displaying it, a pending send
    is not cancelled, and unloading again only tells the channel header
    to unload. *)
Theorem unload_resets (s : ChatBox.t) :
  ∃ s1 e1,
    ChatBox.unload s = (s1, e1, Js.Normal tt) ∧
    ChatBox.messageList s1 = None ∧
    ChatBox.subscription s1 = false ∧
    ChatBox.isSendingReply s1 = ChatBox.isSendingReply s ∧
    ChatBox.threadId s1 = ChatBox.threadId s ∧
    (is_Some (ChatBox.messageList s) →
     ChatBox.messagesLoaded s1 = false ∧ ChatBox.isDisplaying s1 = false ∧
     ChatBox.pendingMessages s1 = []) ∧
    (∀ ml, ChatBox.Deselect ml ∈ e1 ↔
           ChatBox.messageList s = Some ml ∧ ChatBox.isDisplaying s = true) ∧
    ChatBox.unload s1 = (s1, [ChatBox.HeaderUnload], Js.Normal tt).
Proof.
  unfold ChatBox.unload. destruct s as [oml sub ld snd dsp pend thr]. simpl.
  destruct oml as [ml|]; simpl.
  - eexists _, _. split; [reflexivity|]. simpl. split_and!; try done.
    intros ml'. destruct sub, dsp; simpl;
      rewrite ?elem_of_cons, ?elem_of_nil; intuition (try discriminate; try congruence).
  - eexists _, _. split; [reflexivity|]. simpl. split_and!; try done.
    intros ml'. destruct sub; simpl;
      rewrite ?elem_of_cons, ?elem_of_nil; intuition (try discriminate; try congruence).
Qed.

(** Witness for X15: a loaded box that displays its list and holds a
    buffered message. *)
Lemma unload_resets_witness :
  let ml := MessageList.mk "C1" None fresh in
  let s := ChatBox.mk (Some ml) true true false true [Message.mk "1.0" None 4] None in
  ChatBox.Deselect ml ∈ (ChatBox.unload s).1.2 ∧
  ChatBox.pendingMessages (ChatBox.unload s).1.1 = [].
Proof.
  intros ml s.
  destruct (unload_resets s) as (s1 & e1 & Hu & _ & _ & _ & _ & Hres & Hdes & _).
  rewrite Hu. simpl. split.
  - apply Hdes. by split.
  - apply Hres. by eexists.
Defined.

(** *** Tracking of the displayed list *)

Lemma selectBalance_app (b : bool) (l k : list ChatBox.Effect) :
  selectBalance b (l ++ k) =
  match selectBalance b l with
  | Some b' => selectBalance b' k
  | None => None
  end.
Proof.
  revert b. induction l as [|e l IH]; intros b; simpl; [done|].
  destruct e; try apply IH; destruct b; try done; apply IH.
Qed.

Lemma selectBalance_shown (b : bool) (ml : MessageList.t) (ms : list Message.t) :
  selectBalance b (shown ml <$> ms) = Some b.
Proof. induction ms as [|m ms IH]; csimpl; [done|]. exact IH. Qed.

Lemma call_keeps_consistent (c : ChatBox.Call) (s : ChatBox.t) :
  boxConsistent s →
  match c with
  | ChatBox.CReady _ =>
      is_Some (ChatBox.messageList s) ∧ ChatBox.isDisplaying s = false
  | _ => True
  end →
  ∃ s1 e1, ChatBox.call c s = (s1, e1, Js.Normal tt) ∧
           boxConsistent s1 ∧
           selectBalance (ChatBox.isDisplaying s) e1 = Some (ChatBox.isDisplaying s1).
Proof.
  intros Hc Hready. pose proof Hc as [Hld Hdsp].
  assert (Hsame : ∀ e, selectBalance (ChatBox.isDisplaying s) e
                       = Some (ChatBox.isDisplaying s) →
            ∃ s1 e1, (s, e, Js.Normal tt) = (s1, e1, Js.Normal tt) ∧
              boxConsistent s1 ∧
              selectBalance (ChatBox.isDisplaying s) e1
              = Some (ChatBox.isDisplaying s1)).
  { intros e He. by exists s, e. }
  destruct c as [|m|i ts|active| | |shift text| |]; simpl.
  - unfold ChatBox.unload. clear Hsame Hc.
    destruct s as [[ml|] sub ld snd dsp pend thr]; simpl in *.
    + eexists _, _. split; [reflexivity|]. split; [by split|].
      rewrite selectBalance_app. destruct sub, dsp; done.
    + eexists _, _. split; [reflexivity|]. split; [by split|].
      rewrite selectBalance_app. destruct sub; done.
  - unfold ChatBox.newMessage. destruct (ChatBox.otherThread s m).
    { by apply Hsame. }
    destruct (ChatBox.messagesLoaded s) eqn:El; simpl.
    + destruct (Hld eq_refl) as [ml Hml]. rewrite Hml. by apply Hsame.
    + eexists _, _. split; [reflexivity|]. split; [|done].
      split; simpl; [done|exact Hdsp].
  - unfold ChatBox.deleteMessage.
    destruct (ChatBox.messagesLoaded s); by apply Hsame.
  - destruct Hready as [[ml Hml] Hhid]. rewrite (ready_with_list ml) by done.
    eexists _, _. split; [reflexivity|]. split; [by split|]. simpl.
    rewrite selectBalance_app, selectBalance_shown, Hhid.
    by destruct active.
  - unfold ChatBox.notifyDisplaying.
    destruct (ChatBox.messagesLoaded s) eqn:El; simpl; [|by apply Hsame].
    destruct (ChatBox.isDisplaying s) eqn:Ed; simpl.
    + by apply Hsame.
    + destruct (Hld eq_refl) as [ml Hml]. rewrite Hml.
      eexists _, _. split; [reflexivity|]. split; [|done].
      split; simpl; intros _; by eexists.
  - unfold ChatBox.notifyNotDisplaying.
    destruct (ChatBox.isDisplaying s) eqn:Ed; simpl.
    + destruct (Hdsp eq_refl) as [ml Hml]. rewrite Hml.
      eexists _, _. split; [reflexivity|]. split; [|done].
      split; simpl; [intros _; by eexists|done].
    + by apply Hsame.
  - unfold ChatBox.handleEnter, ChatBox.forget. destruct shift; simpl.
    { by apply Hsame. }
    destruct (_ || _ || _) eqn:Eg; simpl.
    { by apply Hsame. }
    destruct (ChatBox.messageList s) as [ml|] eqn:Hml.
    + eexists _, _. split; [reflexivity|]. split; [|done].
      split; simpl; intros _; by eexists.
    + rewrite bool_decide_eq_false_2 in Eg by (by intros [? ?]).
      simpl in Eg. by rewrite orb_true_r in Eg.
  - eexists _, _. split; [reflexivity|]. by split.
  - eexists _, _. split; [reflexivity|]. by split.
Qed.

(** X16. Started in a box that has a message list whenever it is loaded
    or displaying, and with [ready] reported only to a box that has a list
    and is not displaying yet, no sequence of calls throws, and the
    [select] and [deselect] calls made on the message list alternate:
    the list is never selected twice in a row nor deselected while not
    selected, and [isDisplaying] records which came last. *)
Theorem select_deselect_alternate (cs : list ChatBox.Call) :
  ∀ s, boxConsistent s → readyWhenHidden cs s →
    ∃ s' effs, ChatBox.run cs s = (s', effs, Js.Normal tt) ∧
               boxConsistent s' ∧
               selectBalance (ChatBox.isDisplaying s) effs
               = Some (ChatBox.isDisplaying s').
Proof.
  induction cs as [|c cs IH]; intros s Hc Hr; simpl.
  - by exists s, [].
  - destruct Hr as [Hr1 Hr2].
    destruct (call_keeps_consistent c s Hc Hr1) as (s1 & e1 & Hcall & Hc1 & Hb1).
    rewrite Hcall in Hr2 |- *. simpl in Hr2.
    destruct (IH s1 Hc1 Hr2) as (s' & effs & Hrun & Hc' & Hb').
    rewrite Hrun. exists s', (e1 ++ effs). split; [done|]. split; [done|].
    by rewrite selectBalance_app, Hb1.
Qed.

(** Witness for X16: the page gets ready in an active window, the window
    loses and regains focus, and the box is unloaded. *)
Lemma select_deselect_alternate_witness :
  let ml := MessageList.mk "C1" None fresh in
  let s := ChatBox.mk (Some ml) true false false false [] None in
  ∃ s' effs,
    ChatBox.run [ChatBox.CReady true; ChatBox.CNotifyNotDisplaying;
                 ChatBox.CNotifyDisplaying; ChatBox.CNotifyDisplaying;
                 ChatBox.CUnload] s = (s', effs, Js.Normal tt) ∧
    boxConsistent s' ∧
    selectBalance (ChatBox.isDisplaying s) effs = Some (ChatBox.isDisplaying s').
Proof.
  intros ml s. apply select_deselect_alternate.
  - split; simpl; intros _; by eexists.
  - simpl. split_and!; first [done | by eexists].
Defined.

(** *** Sending a reply *)

Lemma sends_app (l k : list ChatBox.Effect) :
  sends (l ++ k) = (sends l + sends k)%nat.
Proof. unfold sends. by rewrite List.filter_app, length_app. Qed.

Lemma sends_shown (ml : MessageList.t) (ms : list Message.t) :
  sends (shown ml <$> ms) = 0%nat.
Proof. induction ms as [|m ms IH]; csimpl; [done|]. exact IH. Qed.

Lemma trimStart_allWhite (s : string) :
  allWhite s = true → Js.trimStart s = EmptyString.
Proof.
  induction s as [|c s IH]; simpl; [done|].
  intros [Hc Hs]%andb_true_iff. rewrite Hc. by apply IH.
Qed.

Lemma trimStart_not_allWhite (s : string) :
  allWhite s = false →
  ∃ c t, Js.trimStart s = String c t ∧ Js.isWhiteSpace c = false.
Proof.
  induction s as [|c s IH]; simpl; [done|].
  destruct (Js.isWhiteSpace c) eqn:Hc; simpl.
  - apply IH.
  - intros _. by exists c, s.
Qed.

Lemma trim_blank (s : string) :
  (String.length (Js.trim s) =? 0)%nat = allWhite s.
Proof.
  unfold Js.trim. destruct (allWhite s) eqn:Hw.
  - by rewrite trimStart_allWhite.
  - destruct (trimStart_not_allWhite s Hw) as (c & t & -> & Hc). simpl.
    rewrite Hc. by destruct (Js.trimEnd t).
Qed.

Lemma flushPending_sends (ms : list Message.t) :
  ∀ s s1 e1 r, ChatBox.flushPending ms s = (s1, e1, r) →
    ChatBox.isSendingReply s1 = ChatBox.isSendingReply s ∧
    ChatBox.messageList s1 = ChatBox.messageList s ∧
    ∀ ml text, ChatBox.SendMessage ml text ∉ e1.
Proof.
  induction ms as [|m ms IH]; intros s s1 e1 r; simpl.
  - intros [= <- <- <-]. split; [done|]. split; [done|].
    intros ml text. apply not_elem_of_nil.
  - assert (Hnew : ∃ sa ea ra, ChatBox.newMessage m s = (sa, ea, ra) ∧
       ChatBox.isSendingReply sa = ChatBox.isSendingReply s ∧
       ChatBox.messageList sa = ChatBox.messageList s ∧
       ∀ ml text, ChatBox.SendMessage ml text ∉ ea).
    { unfold ChatBox.newMessage. destruct (ChatBox.otherThread s m).
      { eexists _, _, _. split; [reflexivity|]. split_and!; try done.
        intros ml text. apply not_elem_of_nil. }
      destruct (negb (ChatBox.messagesLoaded s)).
      { eexists _, _, _. split; [reflexivity|]. split_and!; try done.
        intros ml text. apply not_elem_of_nil. }
      destruct (ChatBox.messageList s) eqn:Hml.
      - eexists _, _, _. split; [reflexivity|]. split_and!; try done.
        intros ml text [H|H]%elem_of_cons; [discriminate H|].
        by apply elem_of_nil in H.
      - eexists _, _, _. split; [reflexivity|]. split_and!; try done.
        intros ml text. apply not_elem_of_nil. }
    destruct Hnew as (sa & ea & ra & -> & Hsa & Hla & Hea).
    destruct ra as [[]|err].
    + destruct (ChatBox.flushPending ms sa) as [[sb eb] rb] eqn:E.
      intros [= <- <- <-]. destruct (IH _ _ _ _ E) as (Hsb & Hlb & Heb).
      split; [congruence|]. split; [congruence|].
      intros ml text [H|H]%elem_of_app; [by apply (Hea ml text)|by apply (Heb ml text)].
    + intros [= <- <- <-]. done.
Qed.

Lemma call_sends (c : ChatBox.Call) (s s1 : ChatBox.t)
    (e1 : list ChatBox.Effect) (r : Js.Completion unit) :
  isSettle c = false →
  ChatBox.call c s = (s1, e1, r) →
  (ChatBox.isSendingReply s = true →
   sends e1 = 0%nat ∧ ChatBox.isSendingReply s1 = true) ∧
  (sends e1 ≤ 1)%nat ∧
  (sends e1 = 1%nat → ChatBox.isSendingReply s1 = true) ∧
  (∀ ml text, ChatBox.SendMessage ml text ∈ e1 →
     allWhite text = false ∧ ChatBox.messageList s = Some ml).
Proof.
  assert (Hquiet : ∀ e, (∀ ml text, ChatBox.SendMessage ml text ∉ e) → sends e = 0%nat).
  { intros e He. unfold sends. induction e as [|x e IH]; [done|]. simpl.
    destruct x;
      first [ exfalso; eapply He; left
            | apply IH; intros a b Hin; apply (He a b); by right ]. }
  assert (Hnone : ∀ sa, ChatBox.isSendingReply sa = ChatBox.isSendingReply s →
      ∀ e, (∀ ml text, ChatBox.SendMessage ml text ∉ e) →
      (ChatBox.isSendingReply s = true →
       sends e = 0%nat ∧ ChatBox.isSendingReply sa = true) ∧
      (sends e ≤ 1)%nat ∧
      (sends e = 1%nat → ChatBox.isSendingReply sa = true) ∧
      (∀ ml text, ChatBox.SendMessage ml text ∈ e →
         allWhite text = false ∧ ChatBox.messageList s = Some ml)).
  { intros sa Hsa e He. rewrite (Hquiet e He). split_and!; try done; try lia.
    - intros Hs. split; [done|congruence].
    - intros ml text Hin. by destruct (He ml text). }
  assert (Hlist : ∀ l : list ChatBox.Effect,
      Forall (fun e => match e with ChatBox.SendMessage _ _ => False | _ => True end) l →
      ∀ ml text, ChatBox.SendMessage ml text ∉ l).
  { intros l Hl ml text Hin. rewrite Forall_forall in Hl. exact (Hl _ Hin). }
  intros Hc. destruct c as [|m|i ts|active| | |shift text| |]; simpl; try done.
  - unfold ChatBox.unload. destruct (ChatBox.messageList s) as [ml|];
      intros [= <- <- <-]; (apply Hnone; [done|]); apply Hlist;
      destruct (ChatBox.subscription s), (ChatBox.isDisplaying s);
      repeat constructor.
  - intros Hcall.
    destruct (flushPending_sends [m] s s1 e1 r) as (Hs & _ & He).
    { simpl. destruct (ChatBox.newMessage m s) as [[sa ea] [[]|err]];
        simpl; rewrite ?app_nil_r; by injection Hcall as <- <- <-. }
    by apply Hnone.
  - unfold ChatBox.deleteMessage. destruct (ChatBox.messagesLoaded s);
      intros [= <- <- <-]; (apply Hnone; [done|]); apply Hlist;
      repeat constructor.
  - unfold ChatBox.ready.
    destruct (ChatBox.flushPending _ _) as [[sa ea] ra] eqn:E.
    destruct (flushPending_sends _ _ _ _ _ E) as (Hsa & Hla & Hea).
    simpl in Hsa, Hla.
    assert (Hpre : ∀ tl, (∀ ml text, ChatBox.SendMessage ml text ∉ tl) →
              ∀ ml text, ChatBox.SendMessage ml text ∉
                [ChatBox.EntrySetEnabled true; ChatBox.EntryFocus] ++ ea ++ tl).
    { intros tl Htl ml text [H|[H|H]%elem_of_app]%elem_of_app.
      - revert H. apply Hlist. repeat constructor.
      - by apply (Hea ml text).
      - by apply (Htl ml text). }
    destruct ra as [[]|err].
    + destruct active; simpl; destruct (ChatBox.messageList sa) as [ml|];
        intros [= <- <- <-]; (apply Hnone; [done|]);
        try (apply Hpre; apply Hlist; repeat constructor).
      all: rewrite <- (app_nil_r ea); apply Hpre; intros ? ?; apply not_elem_of_nil.
    + intros [= <- <- <-]. apply Hnone; [done|].
      rewrite <- (app_nil_r ea). apply Hpre. intros ? ?. apply not_elem_of_nil.
  - unfold ChatBox.notifyDisplaying. destruct (_ && _); simpl;
      [destruct (ChatBox.messageList s)|]; intros [= <- <- <-];
      (apply Hnone; [done|]); apply Hlist; repeat constructor.
  - unfold ChatBox.notifyNotDisplaying. destruct (ChatBox.isDisplaying s); simpl;
      [destruct (ChatBox.messageList s)|]; intros [= <- <- <-];
      (apply Hnone; [done|]); apply Hlist; repeat constructor.
  - unfold ChatBox.handleEnter. destruct shift; simpl.
    { intros [= <- <- <-]. apply Hnone; [done|]. apply Hlist. constructor. }
    rewrite trim_blank.
    destruct (allWhite text) eqn:Hw; simpl.
    { intros [= <- <- <-]. apply Hnone; [done|]. apply Hlist. constructor. }
    destruct (ChatBox.messageList s) as [ml|] eqn:Hml; simpl.
    2:{ intros [= <- <- <-]. apply Hnone; [done|]. apply Hlist. constructor. }
    destruct (ChatBox.isSendingReply s) eqn:Hs; simpl.
    { intros [= <- <- <-]. split_and!; try done; try (cbn; lia).
      intros ml' text' Hin. by apply elem_of_nil in Hin. }
    intros [= <- <- <-]. split_and!; try done; try (cbn; lia).
    intros ml' text' Hin.
    apply elem_of_cons in Hin as [Hin|Hin]; [discriminate Hin|].
    apply list_elem_of_singleton in Hin. by injection Hin as -> ->.
Qed.

(** X17. While a send is in flight nothing more is sent: in any sequence
    of calls that contains no callback of a send, [sendMessage] is called
    at most once, not at all if a send was already pending, a pending send
    stays pending through every call ([unload] included), and the text
    sent is never blank. *)
Theorem at_most_one_send_in_flight (cs : list ChatBox.Call) :
  ∀ s s' effs r,
    forallb (fun c => negb (isSettle c)) cs = true →
    ChatBox.run cs s = (s', effs, r) →
    (sends effs ≤ if ChatBox.isSendingReply s then 0 else 1)%nat ∧
    (ChatBox.isSendingReply s = true → ChatBox.isSendingReply s' = true) ∧
    (sends effs = 1%nat → ChatBox.isSendingReply s' = true) ∧
    (∀ ml text, ChatBox.SendMessage ml text ∈ effs → allWhite text = false).
Proof.
  induction cs as [|c cs IH]; intros s s' effs r Hcs; simpl.
  - intros [= <- <- <-]. split_and!; try done.
    + unfold sends. simpl. destruct (ChatBox.isSendingReply s); lia.
    + intros ml text Hin. by apply elem_of_nil in Hin.
  - simpl in Hcs. apply andb_true_iff in Hcs as [Hc Hcs].
    apply negb_true_iff in Hc.
    destruct (ChatBox.call c s) as [[s1 e1] r1] eqn:Ecall.
    destruct (call_sends _ _ _ _ _ Hc Ecall) as (Hbusy & Hle & Hone & Htext).
    destruct r1 as [[]|err].
    + destruct (ChatBox.run cs s1) as [[s2 e2] r2] eqn:Erun.
      intros [= <- <- <-].
      destruct (IH _ _ _ _ Hcs Erun) as (Hle2 & Hbusy2 & Hone2 & Htext2).
      rewrite sends_app. split_and!.
      * destruct (ChatBox.isSendingReply s) eqn:Hs.
        -- destruct (Hbusy eq_refl) as [-> Hs1]. rewrite Hs1 in Hle2. lia.
        -- destruct (ChatBox.isSendingReply s1) eqn:Hs1; [|lia].
           destruct (sends e1) as [|[|n]] eqn:He1; lia.
      * intros Hs. apply Hbusy2. by apply Hbusy.
      * intros Hsum. destruct (sends e1) as [|[|n]] eqn:He1; try lia.
        -- apply Hone2. lia.
        -- apply Hbusy2. by apply Hone.
      * intros ml text [Hin|Hin]%elem_of_app.
        -- by destruct (Htext ml text Hin).
        -- by apply (Htext2 ml text).
    + intros [= <- <- <-]. split_and!; try done.
      * destruct (ChatBox.isSendingReply s) eqn:Hs; [|done].
        destruct (Hbusy eq_refl) as [-> _]. lia.
      * intros Hs. by apply Hbusy.
      * intros ml text Hin. by destruct (Htext ml text Hin).
Qed.

(** Witness for X17: Enter pressed three times on a loaded box; only the
    first non-blank text is sent. *)
Lemma at_most_one_send_in_flight_witness :
  let ml := MessageList.mk "C1" None fresh in
  let s := ChatBox.mk (Some ml) true true false true [] None in
  let cs := [ChatBox.CHandleEnter false "  "; ChatBox.CHandleEnter false "hi";
             ChatBox.CHandleEnter false "again"] in
  (sends (ChatBox.run cs s).1.2 ≤ 1)%nat ∧
  ChatBox.SendMessage ml "hi" ∈ (ChatBox.run cs s).1.2.
Proof.
  intros ml s cs.
  destruct (ChatBox.run cs s) as [[s' effs] r] eqn:E.
  destruct (at_most_one_send_in_flight cs s s' effs r) as (Hle & _);
    [reflexivity|exact E|].
  split; [exact Hle|]. vm_compute in E. injection E as <- <- <-.
  right. left.
Defined.

(** *** The [normalizeId] helper *)

Lemma replaceFirst_injective (s1 : string) :
  ∀ s2, hasChar "_" s1 = false → hasChar "_" s2 = false →
        Js.replaceFirst "." "_" s1 = Js.replaceFirst "." "_" s2 → s1 = s2.
Proof.
  induction s1 as [|c1 s1 IH]; intros [|c2 s2]; simpl.
  - done.
  - intros _ _. by destruct (Ascii.eqb c2 ".").
  - intros _ _. by destruct (Ascii.eqb c1 ".").
  - intros [Hc1 H1]%orb_false_iff [Hc2 H2]%orb_false_iff.
    destruct (Ascii.eqb_spec c1 ".") as [->|Hd1],
             (Ascii.eqb_spec c2 ".") as [->|Hd2]; intros Heq.
    + injection Heq as ->. done.
    + injection Heq as Hc Hs. subst c2. by rewrite Ascii.eqb_refl in Hc2.
    + injection Heq as Hc Hs. subst c1. by rewrite Ascii.eqb_refl in Hc1.
    + injection Heq as Hc Hs. subst c2. f_equal. by apply IH.
Qed.

Lemma replaceFirst_at_first (p q : string) :
  hasChar "." p = false →
  Js.replaceFirst "." "_" (String.append p (String "." q))
  = String.append p (String "_" q).
Proof.
  induction p as [|c p IH]; simpl; [done|].
  intros [Hc Hp]%orb_false_iff. rewrite Hc. by rewrite IH.
Qed.

(** X18. [normalizeId] replaces the first dot of the id only, and
    prefixes "msg".  Ids that contain no underscore get distinct
    results; an id with a single dot and the same id with that dot
    written as an underscore get the same result. *)
Theorem normalizeId_first_dot :
  (∀ p q, hasChar "." p = false →
     ChatBox.normalizeId (String.append p (String "." q))
     = String.append "msg" (String.append p (String "_" q))) ∧
  (∀ id, hasChar "." id = false →
     ChatBox.normalizeId id = String.append "msg" id) ∧
  (∀ id1 id2, hasChar "_" id1 = false → hasChar "_" id2 = false →
     ChatBox.normalizeId id1 = ChatBox.normalizeId id2 → id1 = id2) ∧
  (∀ p q, hasChar "." p = false → hasChar "." q = false →
     ChatBox.normalizeId (String.append p (String "." q))
     = ChatBox.normalizeId (String.append p (String "_" q))).
Proof.
  assert (Hnodot : ∀ id, hasChar "." id = false → Js.replaceFirst "." "_" id = id).
  { induction id as [|c id IH]; simpl; [done|].
    intros [Hc Hp]%orb_false_iff. rewrite Hc. by rewrite IH. }
  assert (Hunder : ∀ p q, hasChar "." p = false →
            Js.replaceFirst "." "_" (String.append p (String "_" q))
            = String.append p (String "_" (Js.replaceFirst "." "_" q))).
  { induction p as [|c p IH]; intros q; simpl; [done|].
    intros [Hc Hp]%orb_false_iff. rewrite Hc. by rewrite IH. }
  unfold ChatBox.normalizeId. split_and!.
  - intros p q Hp. by rewrite replaceFirst_at_first.
  - intros id Hid. by rewrite Hnodot.
  - intros id1 id2 H1 H2 Heq. simpl in Heq. injection Heq as Heq.
    by apply replaceFirst_injective.
  - intros p q Hp Hq. by rewrite replaceFirst_at_first, Hunder, Hnodot.
Qed.

(** Witness for X18: a Slack timestamp. *)
Lemma normalizeId_first_dot_witness :
  ChatBox.normalizeId "1529.0001" = "msg1529_0001"%string.
Proof.
  destruct normalizeId_first_dot as (H1 & _).
  apply (H1 "1529"%string "0001"%string). reflexivity.
Defined.


End ChatBoxFacts.
